(** * Referral-chain resolution and integrity checks of [tree_system]

    A shallow embedding of the Python scripts
    [build_resolved_referrals.py], [check_csv_duplicates.py],
    [find_missing_sponsors.py], of the member lists and searches of
    [analyze_import_issue.py] and [analyze_member_274.py], and of the
    amounts of [combine_transactions.py].

    - A Python [dict] with string keys is a [gmap string _], a Python [set]
      of strings a [gset string], a Python [list] a [list].
    - A [csv.DictReader] row is a [gmap string string]: the column name maps
      to the cell, a column the row lacks is absent (Python: [None]).
    - Strings are byte strings; [str.strip] and [str.lower] are modelled on
      their ASCII range, the range wallet addresses are written in.
    - The [while True] loop of [resolve_referrer] is a loop body returning
      either the function's result or the next loop state, iterated with
      fuel; enough fuel is proved to exist for every input. *)

From Stdlib Require Import Strings.String Strings.Ascii.
From stdpp Require Import base gmap strings list fin_maps sorting.

#[local] Set Warnings "-clear-no-such-hyp,-level-tolerance".

Local Open Scope string_scope.
Local Open Scope list_scope.
Local Open Scope nat_scope.

(** ** Strings: [str.strip] and [str.lower] *)

Module Str.

(** ASCII characters for which Python's [str.isspace] holds: tab, line
    feed, vertical tab, form feed, carriage return, the separators
    0x1c-0x1f and the space. *)
Definition is_space (c : ascii) : bool :=
  match c with
  | "009" | "010" | "011" | "012" | "013"
  | "028" | "029" | "030" | "031" | " " => true
  | _ => false
  end%char.

Fixpoint lstrip (s : string) : string :=
  match s with
  | EmptyString => EmptyString
  | String c s' => if is_space c then lstrip s' else s
  end.

Fixpoint rstrip (s : string) : string :=
  match s with
  | EmptyString => EmptyString
  | String c s' =>
      match rstrip s' with
      | EmptyString => if is_space c then EmptyString else String c EmptyString
      | t => String c t
      end
  end.

(** [s.strip()] *)
Definition strip (s : string) : string := rstrip (lstrip s).

Definition lower_char (c : ascii) : ascii :=
  let n := nat_of_ascii c in
  if (65 <=? n)%nat && (n <=? 90)%nat then ascii_of_nat (n + 32) else c.

(** [s.lower()] *)
Fixpoint lower (s : string) : string :=
  match s with
  | EmptyString => EmptyString
  | String c s' => String (lower_char c) (lower s')
  end.

End Str.

(** ** CSV rows *)

(** One row yielded by [csv.DictReader]. *)
Abbreviation csv_row := (gmap string string) (only parsing).

(** [(row.get(col) or "").strip()] *)
Definition cell (row : csv_row) (col : string) : string :=
  Str.strip (default "" (row !! col)).

(** [enumerate(reader, start=n)] *)
Definition enumerate {A} (start : nat) (l : list A) : list (nat * A) :=
  zip (seq start (length l)) l.

(** ** build_resolved_referrals.py *)

Module BuildResolvedReferrals.

Definition FALLBACK_ROOT : string :=
  "0xb800d5359a85B5d55a5A680a6eF6f15475D7d9e9".

(** The body of the [for row in reader] loop of [load_member_referrers]. *)
Definition load_member_row (mapping : gmap string string) (row : csv_row)
  : gmap string string :=
  let wallet := cell row "wallet_address" in
  let ref := cell row "referrer_wallet" in
  if decide (wallet = "") then mapping
  else <[wallet := ref]> mapping.

Definition load_member_referrers (rows : list csv_row) : gmap string string :=
  foldl load_member_row ∅ rows.

(** The body of the [for row in reader] loop of [load_user_addresses]. *)
Definition load_user_row (addresses : gset string) (row : csv_row)
  : gset string :=
  let user := cell row "USER BEP20 ADDRESS" in
  if decide (user = "") then addresses else {[user]} ∪ addresses.

Definition load_user_addresses (rows : list csv_row) : gset string :=
  foldl load_user_row ∅ rows.

(** What one pass through the [while True] body of [resolve_referrer] does:
    it leaves the function with a result, or goes round again with the
    updated [seen] and [ref]. *)
Inductive outcome : Type :=
  | Return (result : string)
  | Continue (seen : gset string) (ref : string).

Definition loop_body (member_refs : gmap string string)
    (user_addresses : gset string) (seen : gset string) (ref : string)
  : outcome :=
  if decide (ref = "") then Return FALLBACK_ROOT
  else if decide (ref = FALLBACK_ROOT) then Return FALLBACK_ROOT
  else if decide (ref ∈ seen) then Return FALLBACK_ROOT
  else
    let seen := {[ref]} ∪ seen in
    if decide (ref ∈ user_addresses) then Return ref
    else
      let next_ref := default "" (member_refs !! ref) in
      if decide (next_ref = "") then Return FALLBACK_ROOT
      else Continue seen next_ref.

(** [while True: ...]; [None] when the fuel runs out before a [return]. *)
Fixpoint while_true (fuel : nat) (member_refs : gmap string string)
    (user_addresses : gset string) (seen : gset string) (ref : string)
  : option string :=
  match fuel with
  | O => None
  | S fuel' =>
      match loop_body member_refs user_addresses seen ref with
      | Return result => Some result
      | Continue seen' ref' =>
          while_true fuel' member_refs user_addresses seen' ref'
      end
  end.

Definition resolve_referrer_fuel (fuel : nat) (user_wallet : string)
    (member_refs : gmap string string) (user_addresses : gset string)
  : option string :=
  let seen : gset string := ∅ in
  let current := user_wallet in
  let ref := default "" (member_refs !! current) in
  while_true fuel member_refs user_addresses seen ref.

(** [resolve_referrer], run with one pass more than the map has entries. *)
Definition resolve_referrer (user_wallet : string)
    (member_refs : gmap string string) (user_addresses : gset string)
  : option string :=
  resolve_referrer_fuel (S (size member_refs)) user_wallet member_refs
    user_addresses.

End BuildResolvedReferrals.

(** ** check_csv_duplicates.py *)

Module CheckCsvDuplicates.

(** The module-level variables the first [for] loop fills. *)
Record scan := Scan {
  wallets : list string;
  referrers : list string;
  wallet_to_row : gmap string (list nat)
}.

Definition scan_init : scan :=
  {| wallets := []; referrers := []; wallet_to_row := ∅ |}.

(** The body of the first [for row_num, row in enumerate(reader, start=2)]
    loop. *)
Definition scan_row (st : scan) (numbered : nat * csv_row) : scan :=
  let '(row_num, row) := numbered in
  let user_name := cell row "User Name" in
  let referrer_name := cell row "Referrer_User Name" in
  let st :=
    if decide (user_name = "") then st
    else
      let w2r :=
        if decide (wallet_to_row st !! user_name = None)
        then <[user_name := []]> (wallet_to_row st)
        else wallet_to_row st in
      {| wallets := wallets st ++ [user_name];
         referrers := referrers st;
         wallet_to_row := alter (λ l, l ++ [row_num]) user_name w2r |} in
  if decide (referrer_name = "") then st
  else {| wallets := wallets st;
          referrers := referrers st ++ [referrer_name];
          wallet_to_row := wallet_to_row st |}.

Definition scan_rows (rows : list csv_row) : scan :=
  foldl scan_row scan_init (enumerate 2 rows).

(** [Counter(iterable)] *)
Definition Counter (l : list string) : gmap string nat :=
  foldl (λ c w, <[w := S (default 0 (c !! w))]> c) ∅ l.

Definition wallet_counts (rows : list csv_row) : gmap string nat :=
  Counter (wallets (scan_rows rows)).

(** [{wallet: count for wallet, count in wallet_counts.items() if count > 1}] *)
Definition duplicates (rows : list csv_row) : gmap string nat :=
  filter (λ wc, 1 < wc.2) (wallet_counts rows).

(** Python's order on [(str, int)] tuples: by the string, then by the
    number. *)
Definition tuple_le (a b : string * nat) : Prop :=
  if decide (a.1 = b.1) then a.2 ≤ b.2 else String.le a.1 b.1.

#[global] Instance tuple_le_dec : RelDecision tuple_le.
Proof. intros a b. unfold tuple_le. case_decide; apply _. Defined.

(** [sorted(items)] *)
Definition sorted (items : list (string * nat)) : list (string * nat) :=
  merge_sort tuple_le items.

(** What the report prints for one duplicated wallet. *)
Record duplicate := Duplicate {
  dup_wallet : string;
  dup_count : nat;
  dup_rows : list nat
}.

(** The [for wallet, count in sorted(duplicates.items())] loop, run over an
    enumeration [items] of the dict; [wallet_to_row[wallet]] raises
    [KeyError] ([None]) on a missing key. *)
Definition report_items (w2r : gmap string (list nat))
    (items : list (string * nat)) : option (list duplicate) :=
  mapM (λ wc, rows ← w2r !! wc.1;
              Some {| dup_wallet := wc.1; dup_count := wc.2;
                      dup_rows := rows |})
       (sorted items).

Definition duplicates_report (rows : list csv_row) : option (list duplicate) :=
  report_items (wallet_to_row (scan_rows rows))
               (map_to_list (duplicates rows)).

(** [wallet_set = set(wallets)] *)
Definition wallet_set (rows : list csv_row) : gset string :=
  list_to_set (wallets (scan_rows rows)).

(** An entry of the [missing] list. *)
Record missing_entry := MissingEntry {
  row : nat;
  user : string;
  referrer : string
}.

(** The body of the second [for row_num, row in enumerate(reader, start=2)]
    loop. *)
Definition missing_row (wallet_set : gset string)
    (missing : list missing_entry) (numbered : nat * csv_row)
  : list missing_entry :=
  let '(row_num, row) := numbered in
  let user_name := cell row "User Name" in
  let referrer_name := cell row "Referrer_User Name" in
  if decide (referrer_name ≠ "" ∧ referrer_name ≠ user_name) then
    if decide (referrer_name ∉ wallet_set) then
      missing ++ [ {| row := row_num; user := user_name;
                      referrer := referrer_name |} ]
    else missing
  else missing.

Definition missing (rows : list csv_row) : list missing_entry :=
  foldl (missing_row (wallet_set rows)) [] (enumerate 2 rows).

End CheckCsvDuplicates.

(** ** find_missing_sponsors.py *)

Module FindMissingSponsors.

(** An entry of the [members] list. *)
Record member := Member {
  row : nat;
  wallet : string;
  referrer : string;
  activation_seq : string
}.

(** The body of the reading loop: it fills [members] and [all_wallets]. *)
Definition read_row (st : list member * gset string)
    (numbered : nat * csv_row) : list member * gset string :=
  let '(members, all_wallets) := st in
  let '(row_num, row) := numbered in
  let user_name := cell row "User Name" in
  let referrer_name := cell row "Referrer_User Name" in
  let activation_seq := cell row "Activation sequence" in
  if decide (user_name = "") then (members, all_wallets)
  else ( members ++ [ {| row := row_num; wallet := user_name;
                         referrer := referrer_name;
                         activation_seq := activation_seq |} ],
         {[Str.lower user_name]} ∪ all_wallets ).

Definition read_rows (rows : list csv_row) : list member * gset string :=
  foldl read_row ([], ∅) (enumerate 2 rows).

Definition members (rows : list csv_row) : list member := (read_rows rows).1.
Definition all_wallets (rows : list csv_row) : gset string :=
  (read_rows rows).2.

(** An entry of the [missing_sponsors] list. *)
Record missing_sponsor := MissingSponsor {
  Row : nat;
  Member_Wallet : string;
  Missing_Sponsor : string;
  Activation_Sequence : string
}.

(** The body of the [for member in members] loop (the per-sponsor tally
    [missing_sponsor_counts], which only feeds the printed summary, is left
    out). *)
Definition check_member (all_wallets : gset string)
    (missing_sponsors : list missing_sponsor) (m : member)
  : list missing_sponsor :=
  if decide (referrer m ≠ "") then
    let referrer_lower := Str.lower (referrer m) in
    if decide (referrer_lower ∉ all_wallets) then
      missing_sponsors ++
        [ {| Row := row m; Member_Wallet := wallet m;
             Missing_Sponsor := referrer m;
             Activation_Sequence := activation_seq m |} ]
    else missing_sponsors
  else missing_sponsors.

Definition missing_sponsors (rows : list csv_row) : list missing_sponsor :=
  foldl (check_member (all_wallets rows)) [] (members rows).

End FindMissingSponsors.

(** ** [resolve_referrer] over a store of Python objects

    The same function once more, now with the objects it is handed: the
    dict and the set are reached through references into a store, the
    module constant through the global name space, and [seen = set()]
    allocates a new object.  Every read and write of the source is one
    operation of the monad below. *)

Module Store.

Inductive object : Type :=
  | PyDict (d : gmap string string)
  | PySet (s : gset string).

Abbreviation ref := nat.

Record state := State {
  globals : gmap string string;
  objects : gmap ref object
}.

(** State and failure: [None] is a Python exception ([NameError],
    [TypeError]) or the fuel of the loop running out. *)
Definition M (A : Type) : Type := state → option (A * state).

#[global] Instance store_ret : MRet M := λ A a st, Some (a, st).

#[global] Instance store_bind : MBind M :=
  λ A B k c st, match c st with
                | Some (a, st') => k a st'
                | None => None
                end.

Definition raise {A} : M A := λ _, None.

(** Reading a module-level name. *)
Definition global (name : string) : M string :=
  λ st, match globals st !! name with
        | Some v => Some (v, st)
        | None => None
        end.

(** [set()] *)
Definition new_set : M ref :=
  λ st, let l := fresh (dom (objects st)) in
        Some (l, {| globals := globals st;
                    objects := <[l := PySet ∅]> (objects st) |}).

(** [d.get(key, default)] *)
Definition dict_get (d : ref) (key dflt : string) : M string :=
  λ st, match objects st !! d with
        | Some (PyDict m) => Some (default dflt (m !! key), st)
        | _ => None
        end.

(** [x in s] *)
Definition set_contains (s : ref) (x : string) : M bool :=
  λ st, match objects st !! s with
        | Some (PySet X) => Some (bool_decide (x ∈ X), st)
        | _ => None
        end.

(** [s.add(x)] *)
Definition set_add (s : ref) (x : string) : M unit :=
  λ st, match objects st !! s with
        | Some (PySet X) =>
            Some (tt, {| globals := globals st;
                         objects := <[s := PySet ({[x]} ∪ X)]> (objects st) |})
        | _ => None
        end.

Fixpoint while_true (fuel : nat) (member_refs user_addresses seen : ref)
    (ref : string) : M string :=
  match fuel with
  | O => raise
  | S fuel' =>
      if decide (ref = "") then global "FALLBACK_ROOT"
      else
        root ← global "FALLBACK_ROOT";
        if decide (ref = root) then global "FALLBACK_ROOT"
        else
          looped ← set_contains seen ref;
          if (looped : bool) then global "FALLBACK_ROOT"
          else
            _ ← set_add seen ref;
            found ← set_contains user_addresses ref;
            if (found : bool) then mret ref
            else
              next_ref ← dict_get member_refs ref "";
              if decide (next_ref = "") then global "FALLBACK_ROOT"
              else while_true fuel' member_refs user_addresses seen next_ref
  end.

Definition resolve_referrer (fuel : nat) (user_wallet : string)
    (member_refs user_addresses : ref) : M string :=
  seen ← new_set;
  ref ← dict_get member_refs user_wallet "";
  while_true fuel member_refs user_addresses seen ref.

End Store.

(** ** build_resolved_referrals.py: [main] *)

Module Main.

(** A row handed to [writer.writerow]. *)
Record output_row := OutputRow {
  No : string;
  USER_BEP20_ADDRESS : string;
  REFERAL_ADDRESS : string
}.

(** The body of the [for row in reader] loop of [main]; [None] when
    [resolve_referrer] does not return. *)
Definition main_row (member_refs : gmap string string)
    (user_addresses : gset string) (written : list output_row)
    (row : csv_row) : option (list output_row) :=
  let no := cell row "No" in
  let user := cell row "USER BEP20 ADDRESS" in
  if decide (user = "") then Some written
  else
    resolved ← BuildResolvedReferrals.resolve_referrer user member_refs
                 user_addresses;
    Some (written ++ [ {| No := no; USER_BEP20_ADDRESS := user;
                          REFERAL_ADDRESS := resolved |} ]).

(** [main], as a function of the rows of the members export and of the
    input file (which it reads twice: for the cohort and for the loop); the
    result is the list of rows written to the output file. *)
Definition main (members_csv input_csv : list csv_row)
  : option (list output_row) :=
  let member_refs := BuildResolvedReferrals.load_member_referrers members_csv in
  let user_addresses := BuildResolvedReferrals.load_user_addresses input_csv in
  foldl (λ written row,
           written ≫= λ w, main_row member_refs user_addresses w row)
        (Some []) input_csv.

End Main.

(** ** find_missing_sponsors.py: the tally of missing sponsors *)

Module MissingSponsorCounts.

(** A [Counter] with its keys in order of first insertion, as Python
    enumerates them. [incr c k] is [c[k] += 1]. *)
Fixpoint incr (c : list (string * nat)) (k : string) : list (string * nat) :=
  match c with
  | [] => [(k, 1)]
  | (k', n) :: c' =>
      if decide (k' = k) then (k', S n) :: c' else (k', n) :: incr c' k
  end.

(** The body of the [for member in members] loop, with both the list and
    the tally it fills. *)
Definition check_member (all_wallets : gset string)
    (st : list FindMissingSponsors.missing_sponsor * list (string * nat))
    (m : FindMissingSponsors.member)
  : list FindMissingSponsors.missing_sponsor * list (string * nat) :=
  let '(missing_sponsors, missing_sponsor_counts) := st in
  if decide (FindMissingSponsors.referrer m ≠ "") then
    let referrer_lower := Str.lower (FindMissingSponsors.referrer m) in
    if decide (referrer_lower ∉ all_wallets) then
      ( missing_sponsors ++
          [ {| FindMissingSponsors.Row := FindMissingSponsors.row m;
               FindMissingSponsors.Member_Wallet := FindMissingSponsors.wallet m;
               FindMissingSponsors.Missing_Sponsor :=
                 FindMissingSponsors.referrer m;
               FindMissingSponsors.Activation_Sequence :=
                 FindMissingSponsors.activation_seq m |} ],
        incr missing_sponsor_counts (FindMissingSponsors.referrer m) )
    else st
  else st.

Definition check_members (rows : list csv_row)
  : list FindMissingSponsors.missing_sponsor * list (string * nat) :=
  foldl (check_member (FindMissingSponsors.all_wallets rows)) ([], [])
    (FindMissingSponsors.members rows).

Definition missing_sponsor_counts (rows : list csv_row)
  : list (string * nat) := (check_members rows).2.





End MissingSponsorCounts.

(** ** analyze_import_issue.py and analyze_member_274.py *)

Module AnalyzeImportIssue.

(** The body of the reading loop: every row becomes a member, also one
    without a user name. *)
Definition read_row (members : list FindMissingSponsors.member)
    (numbered : nat * csv_row) : list FindMissingSponsors.member :=
  let '(row_num, row) := numbered in
  let user_name := cell row "User Name" in
  let referrer_name := cell row "Referrer_User Name" in
  let activation_seq := cell row "Activation sequence" in
  members ++ [ {| FindMissingSponsors.row := row_num;
                  FindMissingSponsors.wallet := user_name;
                  FindMissingSponsors.referrer := referrer_name;
                  FindMissingSponsors.activation_seq := activation_seq |} ].

Definition members (rows : list csv_row) : list FindMissingSponsors.member :=
  foldl read_row [] (enumerate 2 rows).

(** [any(x['wallet'].lower() == m['referrer'].lower() for x in members)] *)
Definition ref_found (members : list FindMissingSponsors.member)
    (m : FindMissingSponsors.member) : bool :=
  existsb (λ x, bool_decide (Str.lower (FindMissingSponsors.wallet x)
                             = Str.lower (FindMissingSponsors.referrer m)))
          members.

(** The body of the counting loop [for m in members]. *)
Definition count_member (members : list FindMissingSponsors.member)
    (missing_sponsors : list FindMissingSponsors.member)
    (m : FindMissingSponsors.member) : list FindMissingSponsors.member :=
  if decide (FindMissingSponsors.referrer m ≠ "") then
    if ref_found members m then missing_sponsors
    else missing_sponsors ++ [m]
  else missing_sponsors.

Definition missing_sponsors (rows : list csv_row)
  : list FindMissingSponsors.member :=
  foldl (count_member (members rows)) [] (members rows).

(** The search [for idx, m in enumerate(members): if ...: ... break] for the
    referrer of [target], from index [idx] on: the member id [idx + 1] and
    the member it prints, or [None] when the loop ends without a match. *)
Fixpoint find_referrer (idx : nat) (members : list FindMissingSponsors.member)
    (target : FindMissingSponsors.member)
  : option (nat * FindMissingSponsors.member) :=
  match members with
  | [] => None
  | m :: members' =>
      if decide (Str.lower (FindMissingSponsors.wallet m)
                 = Str.lower (FindMissingSponsors.referrer target))
      then Some (idx + 1, m)
      else find_referrer (S idx) members' target
  end.

End AnalyzeImportIssue.

(** ** combine_transactions.py: the amounts

    The time stamps of the records come from [datetime] and [random] and
    are left out; the amounts do not depend on them.  The time arithmetic
    can raise ([OverflowError] past the year 9999, [ValueError] in the sort
    key), and [main] then writes nothing: the lists below are the amounts
    of a run that reaches its output. *)

Module CombineTransactions.

Definition LEVEL_FEES : gmap Z Z :=
  list_to_map
    [ (1, 130); (2, 150); (3, 200); (4, 250); (5, 300); (6, 350); (7, 400);
      (8, 450); (9, 500); (10, 550); (11, 600); (12, 650); (13, 700);
      (14, 750); (15, 800); (16, 850); (17, 900); (18, 950); (19, 1000) ]%Z.

(** [130 if activation_sequence % 2 == 0 else 120] *)
Definition registration_amount (activation_sequence : Z) : Z :=
  if decide (activation_sequence `mod` 2 = 0)%Z then 130%Z else 120%Z.

(** The fees of the records the loop [for level in range(2, current_level + 1)]
    appends: [LEVEL_FEES.get(level, 0)] where it is positive. *)
Definition upgrade_amounts (current_level : Z) : list Z :=
  filter (λ fee, (0 < fee)%Z)
    ((λ level, default 0%Z (LEVEL_FEES !! level))
       <$> seqZ 2 (current_level - 1)).

(** The [total_payment] of the records appended for one member, in the
    order they are appended. *)
Definition member_amounts (activation_sequence current_level : Z) : list Z :=
  registration_amount activation_sequence :: upgrade_amounts current_level.

(** The [total_payment] column of [output_records] before it is sorted by
    time, for members given by their activation sequence and level in the
    order [members.items()] yields them. *)
Definition output_amounts (members : list (Z * Z)) : list Z :=
  mbind (λ m, member_amounts m.1 m.2) members.

End CombineTransactions.

Import BuildResolvedReferrals.

(** * Vocabulary of the statements *)

(** The loop states a run of the [while True] loop passes through, starting
    from [seen], [ref]. *)
Inductive walk (member_refs : gmap string string)
    (user_addresses : gset string) (seen : gset string) (ref : string)
  : gset string → string → Prop :=
  | walk_here : walk member_refs user_addresses seen ref seen ref
  | walk_step seen' ref' seen'' ref'' :
      loop_body member_refs user_addresses seen ref = Continue seen' ref' →
      walk member_refs user_addresses seen' ref' seen'' ref'' →
      walk member_refs user_addresses seen ref seen'' ref''.

(** The store holds the module constant, and the dict [m] and the set [a]
    under the references [member_refs] and [user_addresses]. *)
Definition holds (member_refs user_addresses : Store.ref)
    (m : gmap string string) (a : gset string) (st : Store.state) : Prop :=
  Store.globals st !! "FALLBACK_ROOT" = Some FALLBACK_ROOT ∧
  Store.objects st !! member_refs = Some (Store.PyDict m) ∧
  Store.objects st !! user_addresses = Some (Store.PySet a).

(** A row of the members export: wallet and referrer. *)
Definition mrow (wallet referrer : string) : csv_row :=
  {[ "wallet_address" := wallet; "referrer_wallet" := referrer ]}.

(** A row of the membership export: user name and referrer. *)
Definition urow (user_name referrer_name : string) : csv_row :=
  {[ "User Name" := user_name; "Referrer_User Name" := referrer_name ]}.

(** The row numbers, in input order, of the numbered rows whose user name
    is [w]. *)
Definition rows_of (w : string) (numbered : list (nat * csv_row)) : list nat :=
  (filter (λ p, cell p.2 "User Name" = w) numbered).*1.

(** Strictly before, in the order [sorted] puts strings in. *)
Definition str_lt (s1 s2 : string) : Prop := String.le s1 s2 ∧ s1 ≠ s2.

(** The printed line of a duplicated wallet: its count and all its rows. *)
Definition duplicate_of (numbered : list (nat * csv_row)) (wc : string * nat)
  : CheckCsvDuplicates.duplicate :=
  {| CheckCsvDuplicates.dup_wallet := wc.1;
     CheckCsvDuplicates.dup_count := wc.2;
     CheckCsvDuplicates.dup_rows := rows_of wc.1 numbered |}.

(** The test [check_csv_duplicates.py] puts a numbered row to. *)
Definition is_missing (wallet_set : gset string) (p : nat * csv_row) : Prop :=
  cell p.2 "Referrer_User Name" ≠ "" ∧
  cell p.2 "Referrer_User Name" ≠ cell p.2 "User Name" ∧
  cell p.2 "Referrer_User Name" ∉ wallet_set.

#[global] Instance is_missing_dec ws p : Decision (is_missing ws p).
Proof. unfold is_missing. apply _. Defined.

(** The entry it appends for a row that fails the test. *)
Definition missing_entry_of (p : nat * csv_row)
  : CheckCsvDuplicates.missing_entry :=
  {| CheckCsvDuplicates.row := p.1;
     CheckCsvDuplicates.user := cell p.2 "User Name";
     CheckCsvDuplicates.referrer := cell p.2 "Referrer_User Name" |}.

(** What [find_missing_sponsors.py] keeps of a numbered row. *)
Definition member_of (p : nat * csv_row) : FindMissingSponsors.member :=
  {| FindMissingSponsors.row := p.1;
     FindMissingSponsors.wallet := cell p.2 "User Name";
     FindMissingSponsors.referrer := cell p.2 "Referrer_User Name";
     FindMissingSponsors.activation_seq := cell p.2 "Activation sequence" |}.

(** The test [find_missing_sponsors.py] puts a member to. *)
Definition is_missing_sponsor (all_wallets : gset string)
    (m : FindMissingSponsors.member) : Prop :=
  FindMissingSponsors.referrer m ≠ "" ∧
  Str.lower (FindMissingSponsors.referrer m) ∉ all_wallets.

#[global] Instance is_missing_sponsor_dec ws m :
  Decision (is_missing_sponsor ws m).
Proof. unfold is_missing_sponsor. apply _. Defined.

(** The entry it appends for a member that fails the test. *)
Definition missing_sponsor_of (m : FindMissingSponsors.member)
  : FindMissingSponsors.missing_sponsor :=
  {| FindMissingSponsors.Row := FindMissingSponsors.row m;
     FindMissingSponsors.Member_Wallet := FindMissingSponsors.wallet m;
     FindMissingSponsors.Missing_Sponsor := FindMissingSponsors.referrer m;
     FindMissingSponsors.Activation_Sequence :=
       FindMissingSponsors.activation_seq m |}.

(** The rows of a three-cycle: A names B as its referrer, B names C and C
    names A. *)
Definition cycle_rows (A B C : string) : list csv_row :=
  [urow A B; urow B C; urow C A].

(** An output row of [main] answers an input row: number and address are
    copied and the referral address is what [resolve_referrer] returns. *)
Definition answers (member_refs : gmap string string)
    (user_addresses : gset string) (row : csv_row) (o : Main.output_row)
  : Prop :=
  Main.No o = cell row "No" ∧
  Main.USER_BEP20_ADDRESS o = cell row "USER BEP20 ADDRESS" ∧
  resolve_referrer (Main.USER_BEP20_ADDRESS o) member_refs user_addresses
  = Some (Main.REFERAL_ADDRESS o).

(** ** Inputs of the examples *)

Definition cycle_ex : gmap string string := {[ "u" := "v"; "v" := "u" ]}.

Definition store_ex : Store.state :=
  {| Store.globals := {[ "FALLBACK_ROOT" := FALLBACK_ROOT ]};
     Store.objects :=
       {[ 0 := Store.PyDict cycle_ex; 1 := Store.PySet {[ "w" ]} ]} |}.

Definition order_ex : list csv_row :=
  [urow "b" ""; urow "b" ""; urow "a" ""; urow "a" ""].

Definition cycle_map_ex : gmap string string :=
  {[ "0xA" := "0xB"; "0xB" := "0xC"; "0xC" := "0xA" ]}.

(** Members A (no referrer), B -> A, C -> B, D -> C and E -> Z with Z
    unknown. *)
Definition scenario : list csv_row :=
  [mrow "A" ""; mrow "B" "A"; mrow "C" "B"; mrow "D" "C"; mrow "E" "Z"].

(** * First checks *)

Example strip_ex : Str.strip "  0xAb c	 " = "0xAb c".
Proof. reflexivity. Qed.

Example lower_ex : Str.lower "0xAbC[Z@`{" = "0xabc[z@`{".
Proof. reflexivity. Qed.

Example resolve_ex :
  resolve_referrer "D"
    (load_member_referrers
       [ {[ "wallet_address" := "A"; "referrer_wallet" := "" ]};
         {[ "wallet_address" := "B"; "referrer_wallet" := "A" ]};
         {[ "wallet_address" := "C"; "referrer_wallet" := " B" ]};
         {[ "wallet_address" := "D "; "referrer_wallet" := "C" ]} ])
    {[ "B" ]} = Some "B".
Proof. vm_compute. reflexivity. Qed.

(** * Chain resolution *)

Section resolve.
Context (member_refs : gmap string string) (user_addresses : gset string).

Local Abbreviation body := (loop_body member_refs user_addresses).
Local Abbreviation loop fuel := (while_true fuel member_refs user_addresses).

Lemma FALLBACK_ROOT_nonempty : FALLBACK_ROOT ≠ "".
Proof. discriminate. Qed.

Lemma loop_body_Return seen ref r :
  body seen ref = Return r →
  r ≠ "" ∧ (r = FALLBACK_ROOT ∨ (r = ref ∧ r ∈ user_addresses ∧ r ∉ seen)).
Proof.
  unfold loop_body. pose proof FALLBACK_ROOT_nonempty.
  repeat case_decide; intros [= <-]; auto.
Qed.

Lemma loop_body_Continue seen ref seen' ref' :
  body seen ref = Continue seen' ref' →
  ref ≠ "" ∧ ref ≠ FALLBACK_ROOT ∧ ref ∉ seen ∧ ref ∉ user_addresses ∧
  seen' = {[ref]} ∪ seen ∧ member_refs !! ref = Some ref' ∧ ref' ≠ "".
Proof.
  unfold loop_body. repeat case_decide; try discriminate.
  intros [= <- <-]. repeat split; auto.
  destruct (member_refs !! ref) as [next|] eqn:E; simpl in *; congruence.
Qed.

(** A qualifying referrer met outside [seen] is returned at once, whatever
    the map says about it. *)
Lemma loop_body_qualifying seen ref :
  ref ≠ "" → ref ∉ seen → ref ∈ user_addresses → body seen ref = Return ref.
Proof.
  intros. unfold loop_body. repeat case_decide; congruence.
Qed.

(** Outside the cohort the pass ends at the root or climbs one edge. *)
Lemma loop_body_not_qualifying seen ref :
  ref ∉ user_addresses →
  body seen ref = Return FALLBACK_ROOT ∨
  ∃ next, member_refs !! ref = Some next ∧
          body seen ref = Continue ({[ref]} ∪ seen) next.
Proof.
  intros Hn. destruct (body seen ref) as [r|seen' ref'] eqn:E.
  - apply loop_body_Return in E as [_ [->|(-> & ? & _)]]; [by left | done].
  - apply loop_body_Continue in E as (_ & _ & _ & _ & -> & ? & _). eauto.
Qed.

Lemma loop_body_root seen : body seen FALLBACK_ROOT = Return FALLBACK_ROOT.
Proof. reflexivity. Qed.

Lemma while_true_S fuel seen ref :
  loop (S fuel) seen ref =
    match body seen ref with
    | Return r => Some r
    | Continue seen' ref' => loop fuel seen' ref'
    end.
Proof. reflexivity. Qed.

(** More fuel never changes a result. *)
Lemma while_true_mono fuel fuel' seen ref r :
  loop fuel seen ref = Some r → fuel ≤ fuel' → loop fuel' seen ref = Some r.
Proof.
  revert fuel' seen ref. induction fuel as [|fuel IH]; intros fuel' seen ref.
  - discriminate.
  - intros Hrun Hle. destruct fuel' as [|fuel']; [lia|].
    rewrite while_true_S in *. destruct (body seen ref); [done|].
    apply IH; [done | lia].
Qed.

Lemma while_true_agree fuel fuel' seen ref r r' :
  loop fuel seen ref = Some r → loop fuel' seen ref = Some r' → r = r'.
Proof.
  intros H1 H2.
  apply (while_true_mono _ (fuel `max` fuel')) in H1; [|lia].
  apply (while_true_mono _ (fuel `max` fuel')) in H2; [|lia].
  congruence.
Qed.

Lemma while_true_result fuel seen ref r :
  loop fuel seen ref = Some r →
  r ≠ "" ∧ (r = FALLBACK_ROOT ∨ r ∈ user_addresses).
Proof.
  revert seen ref. induction fuel as [|fuel IH]; intros seen ref; [done|].
  rewrite while_true_S. destruct (body seen ref) as [r0|seen' ref'] eqn:E.
  - intros [= ->]. apply loop_body_Return in E as [? [?|(_ & ? & _)]]; auto.
  - apply IH.
Qed.

Lemma size_map_img_le (m : gmap string string) :
  size (map_img m : gset string) ≤ size m.
Proof.
  induction m as [|k v m Hk _ IH] using map_first_key_ind.
  - by rewrite map_img_empty_L, size_empty, map_size_empty.
  - rewrite map_size_insert_None by done.
    etrans; [apply subseteq_size, map_img_insert_subseteq|].
    rewrite size_union_alt, size_singleton.
    assert (size ((map_img m : gset string) ∖ {[v]}) ≤ size (map_img m : gset string))
      by (apply subseteq_size; set_solver).
    lia.
Qed.

(** Every pass that goes round again adds a value of the map to [seen], so
    the values not yet seen bound the number of passes. *)
Lemma while_true_total fuel seen ref :
  ref = "" ∨ ref ∈ (map_img member_refs : gset string) →
  size ((map_img member_refs : gset string) ∖ seen) < fuel →
  is_Some (loop fuel seen ref).
Proof.
  revert seen ref. induction fuel as [|fuel IH]; intros seen ref Href Hsz; [lia|].
  rewrite while_true_S. destruct (body seen ref) as [r0|seen' ref'] eqn:E; [eauto|].
  apply loop_body_Continue in E as (Hne & _ & Hseen & _ & -> & Hnext & _).
  destruct Href as [->|Href]; [done|].
  apply IH.
  - right. by eapply elem_of_map_img_2.
  - assert ((map_img member_refs : gset string) ∖ ({[ref]} ∪ seen)
              ⊂ map_img member_refs ∖ seen) as Hsub%subset_size; [|lia].
    split; [set_solver|]. intros Hsub. specialize (Hsub ref). set_solver.
Qed.

Lemma resolve_referrer_total user_wallet extra :
  is_Some (resolve_referrer_fuel (S (size member_refs) + extra) user_wallet
             member_refs user_addresses).
Proof.
  unfold resolve_referrer_fuel. apply while_true_total.
  - destruct (member_refs !! user_wallet) as [v|] eqn:E; simpl; [|by left].
    right. by eapply elem_of_map_img_2.
  - pose proof (size_map_img_le member_refs).
    assert (size ((map_img member_refs : gset string) ∖ ∅)
              ≤ size (map_img member_refs : gset string))
      by (apply subseteq_size; set_solver).
    lia.
Qed.

(** Along a walk that starts with nothing seen, no seen referrer
    qualifies. *)
Lemma walk_seen seen ref seen' ref' :
  walk member_refs user_addresses seen ref seen' ref' →
  seen ## user_addresses → seen' ## user_addresses.
Proof.
  induction 1 as [|seen ref seen' ref' seen'' ref'' Hstep _ IH]; [done|].
  intros Hdisj. apply IH.
  apply loop_body_Continue in Hstep as (_ & _ & _ & ? & -> & _). set_solver.
Qed.

Lemma walk_run seen ref seen' ref' fuel r :
  walk member_refs user_addresses seen ref seen' ref' →
  loop fuel seen' ref' = Some r →
  ∃ fuel', loop fuel' seen ref = Some r.
Proof.
  induction 1 as [|seen ref seen' ref' seen'' ref'' Hstep _ IH]; [eauto|].
  intros [fuel' Hrun]%IH. exists (S fuel'). by rewrite while_true_S, Hstep.
Qed.

End resolve.

(** C2: for every map (cyclic or not), every start and every cohort set,
    [resolve_referrer] returns: one pass more than the map has entries is
    enough fuel, and more fuel gives the same result.  The result is never
    the empty string; it is the fallback root or a member of the cohort. *)
Theorem resolve_referrer_terminates (member_refs : gmap string string)
    (user_wallet : string) (user_addresses : gset string) :
  ∃ r, resolve_referrer user_wallet member_refs user_addresses = Some r ∧
       (∀ extra, resolve_referrer_fuel (S (size member_refs) + extra)
                   user_wallet member_refs user_addresses = Some r) ∧
       r ≠ "" ∧
       (r ∈ user_addresses ∨ r = FALLBACK_ROOT).
Proof.
  destruct (resolve_referrer_total member_refs user_addresses user_wallet 0)
    as [r Hr].
  exists r. rewrite Nat.add_0_r in Hr. split; [done|]. split.
  - intros extra. eapply while_true_mono; [exact Hr | lia].
  - apply while_true_result in Hr as [? [?|?]]; auto.
Qed.

(** C1: on a chain X -> Y -> Z -> ROOT, with Y an identifier (not empty),
    [resolve_referrer] from X returns Y when Y is in the cohort, and the
    fallback root when neither Y nor Z is. *)
Theorem resolve_referrer_chain (member_refs : gmap string string)
    (user_addresses : gset string) (X Y Z : string) :
  member_refs !! X = Some Y →
  member_refs !! Y = Some Z →
  member_refs !! Z = Some FALLBACK_ROOT →
  Y ≠ "" →
  (Y ∈ user_addresses →
   resolve_referrer X member_refs user_addresses = Some Y) ∧
  (Y ∉ user_addresses → Z ∉ user_addresses →
   resolve_referrer X member_refs user_addresses = Some FALLBACK_ROOT).
Proof.
  intros HX HY HZ HYne. split.
  - intros HYq. unfold resolve_referrer, resolve_referrer_fuel.
    rewrite HX. simpl. unfold loop_body.
    repeat case_decide; try set_solver; congruence.
  - intros HYn HZn.
    destruct (resolve_referrer_total member_refs user_addresses X 0) as [r Hr].
    rewrite Nat.add_0_r in Hr. unfold resolve_referrer. rewrite Hr. f_equal.
    unfold resolve_referrer_fuel in Hr. rewrite HX in Hr.
    change (default "" (Some Y)) with Y in Hr.
    eapply (while_true_agree _ _ _ 3); [exact Hr|].
    rewrite while_true_S.
    destruct (loop_body_not_qualifying member_refs _ ∅ Y HYn)
      as [->|(next & Hnext & ->)]; [done|].
    assert (next = Z) as -> by congruence.
    rewrite while_true_S.
    destruct (loop_body_not_qualifying member_refs _ ({[Y]} ∪ ∅) Z HZn)
      as [->|(next & Hnext' & ->)]; [done|].
    assert (next = FALLBACK_ROOT) as -> by congruence.
    by rewrite while_true_S, loop_body_root.
Qed.

Lemma resolve_referrer_chain_witness :
  resolve_referrer "X"
    {[ "X" := "Y"; "Y" := "Z"; "Z" := FALLBACK_ROOT ]} {[ "Y" ]} = Some "Y".
Proof.
  apply (resolve_referrer_chain _ {[ "Y" ]} "X" "Y" "Z").
  - reflexivity.
  - reflexivity.
  - reflexivity.
  - discriminate.
  - apply elem_of_singleton_2. reflexivity.
Defined.

(** C10: when the walk of [resolve_referrer] reaches a referrer that is in
    the cohort, that referrer is the result, with nothing asked of the map
    about it: the result need not be a key of the map, and there are inputs
    where it is not. *)
Theorem resolve_referrer_dangling_qualifying :
  (∀ (member_refs : gmap string string) (user_addresses : gset string)
     (user_wallet : string) (seen : gset string) (ref : string),
     walk member_refs user_addresses
       ∅ (default "" (member_refs !! user_wallet)) seen ref →
     ref ≠ "" →
     ref ∈ user_addresses →
     resolve_referrer user_wallet member_refs user_addresses = Some ref) ∧
  (∃ (member_refs : gmap string string) (user_addresses : gset string)
     (user_wallet r : string),
     resolve_referrer user_wallet member_refs user_addresses = Some r ∧
     member_refs !! r = None).
Proof.
  split.
  - intros member_refs user_addresses user_wallet seen ref Hwalk Hne Hq.
    destruct (resolve_referrer_total member_refs user_addresses user_wallet 0)
      as [r Hr].
    rewrite Nat.add_0_r in Hr. unfold resolve_referrer. rewrite Hr. f_equal.
    pose proof (walk_seen _ _ _ _ _ _ Hwalk) as Hdisj.
    assert (while_true 1 member_refs user_addresses seen ref = Some ref) as Hlast.
    { rewrite while_true_S, loop_body_qualifying; [done..| |done]. set_solver. }
    destruct (walk_run _ _ _ _ _ _ _ _ Hwalk Hlast) as [fuel' Hfuel'].
    eapply while_true_agree; [exact Hr | exact Hfuel'].
  - exists {[ "u" := "d" ]}, {[ "d" ]}, "u", "d". split; reflexivity.
Qed.

Lemma resolve_referrer_dangling_qualifying_witness :
  resolve_referrer "u" {[ "u" := "v"; "v" := "d" ]} {[ "d" ]} = Some "d" ∧
  ({[ "u" := "v"; "v" := "d" ]} : gmap string string) !! "d" = None.
Proof.
  split; [|reflexivity].
  apply (proj1 resolve_referrer_dangling_qualifying _ _ "u" {[ "v" ]} "d").
  - eapply walk_step; [|apply walk_here]. vm_compute. reflexivity.
  - discriminate.
  - apply elem_of_singleton_2. reflexivity.
Defined.

(** * Resolution over the object store *)

Section store.
Import Store.
Context (member_refs user_addresses : ref).
Context (m : gmap string string) (a : gset string).

Local Abbreviation held := (holds member_refs user_addresses m a).

Lemma bind_run {A B} (c : M A) (k : A → M B) (st : state) :
  (c ≫= k) st = match c st with
                | Some (x, st') => k x st'
                | None => None
                end.
Proof. reflexivity. Qed.

Lemma store_while_true fuel (seen : ref) (X : gset string) (ref r : string)
    (st : state) :
  held st →
  objects st !! seen = Some (PySet X) →
  seen ≠ member_refs → seen ≠ user_addresses →
  BuildResolvedReferrals.while_true fuel m a X ref = Some r →
  ∃ X', Store.while_true fuel member_refs user_addresses seen ref st
        = Some (r, {| globals := globals st;
                      objects := <[seen := PySet X']> (objects st) |}).
Proof.
  revert X ref st. induction fuel as [|fuel IH]; intros X ref st; [done|].
  intros (Hroot & Hm & Ha) Hseen Hnm Hna.
  assert (st = {| globals := globals st;
                  objects := <[seen := PySet X]> (objects st) |}) as Hst.
  { destruct st as [g o]. simpl in *. by rewrite insert_id. }
  assert (global "FALLBACK_ROOT" st = Some (FALLBACK_ROOT, st)) as Hglobal.
  { unfold global. by rewrite Hroot. }
  rewrite while_true_S. unfold loop_body. simpl.
  destruct (decide (ref = "")) as [->|Hne].
  { intros [= <-]. exists X. rewrite Hglobal. by rewrite <- Hst. }
  rewrite bind_run, Hglobal.
  destruct (decide (ref = FALLBACK_ROOT)) as [->|Hnr].
  { intros [= <-]. exists X. rewrite Hglobal. by rewrite <- Hst. }
  rewrite bind_run. unfold set_contains at 1. rewrite Hseen.
  destruct (decide (ref ∈ X)) as [Hin|Hnin].
  { rewrite bool_decide_eq_true_2 by done.
    intros [= <-]. exists X. rewrite Hglobal. by rewrite <- Hst. }
  rewrite bool_decide_eq_false_2 by done.
  rewrite bind_run. unfold set_add at 1. rewrite Hseen.
  rewrite bind_run. unfold set_contains at 1. simpl.
  rewrite lookup_insert_ne, Ha by done.
  destruct (decide (ref ∈ a)) as [Hq|Hnq].
  { rewrite bool_decide_eq_true_2 by done. intros [= <-].
    by exists ({[ref]} ∪ X). }
  rewrite bool_decide_eq_false_2 by done.
  rewrite bind_run. unfold dict_get at 1. simpl.
  rewrite lookup_insert_ne, Hm by done.
  destruct (decide (default "" (m !! ref) = "")) as [He|Hnext].
  { intros [= <-]. exists ({[ref]} ∪ X). unfold global. simpl.
    by rewrite Hroot. }
  intros Hrun.
  eapply IH in Hrun as [X' HX']; first (exists X'; rewrite HX'; simpl).
  - by rewrite insert_insert_eq.
  - repeat split; simpl; [done|by rewrite lookup_insert_ne..].
  - simpl. apply lookup_insert_eq.
  - done.
  - done.
Qed.

(** One call: the pure function's result, and a final store that extends
    the initial one by the fresh [seen] object only. *)
Lemma store_resolve_referrer (user_wallet : string) (st : state) :
  held st →
  ∃ r st',
    Store.resolve_referrer (S (size m)) user_wallet member_refs
      user_addresses st = Some (r, st') ∧
    BuildResolvedReferrals.resolve_referrer user_wallet m a = Some r ∧
    globals st' = globals st ∧
    objects st ⊆ objects st'.
Proof.
  intros Hst. pose proof Hst as (Hroot & Hm & Ha).
  destruct (resolve_referrer_total m a user_wallet 0) as [r Hr].
  rewrite Nat.add_0_r in Hr.
  set (seen := fresh (dom (objects st))).
  assert (objects st !! seen = None) as Hfresh.
  { apply not_elem_of_dom, is_fresh. }
  assert (seen ≠ member_refs) by congruence.
  assert (seen ≠ user_addresses) by congruence.
  unfold Store.resolve_referrer, mbind, store_bind, new_set, dict_get.
  fold seen. simpl. rewrite lookup_insert_ne, Hm by done.
  edestruct (store_while_true (S (size m)) seen ∅
               (default "" (m !! user_wallet)) r
               {| globals := globals st;
                  objects := <[seen := PySet ∅]> (objects st) |})
    as [X' HX']; try done.
  - repeat split; simpl; [done|by rewrite lookup_insert_ne..].
  - simpl. apply lookup_insert_eq.
  - eexists _, _. split; [exact HX'|]. simpl. split; [done|]. split; [done|].
    rewrite insert_insert_eq. by apply insert_subseteq.
Qed.

End store.

(** C9: a call of [resolve_referrer] on a store holding the referral dict,
    the cohort set and the fallback constant returns the result of the pure
    function and leaves every object of the store and every global as it
    was (the only new object is the call's own [seen] set); the same call
    on the resulting store returns the same result. *)
Theorem resolve_referrer_frame (member_refs user_addresses : Store.ref)
    (m : gmap string string) (a : gset string) (user_wallet : string)
    (st : Store.state) :
  holds member_refs user_addresses m a st →
  ∃ r st' st'',
    Store.resolve_referrer (S (size m)) user_wallet member_refs
      user_addresses st = Some (r, st') ∧
    resolve_referrer user_wallet m a = Some r ∧
    Store.globals st' = Store.globals st ∧
    Store.objects st ⊆ Store.objects st' ∧
    holds member_refs user_addresses m a st' ∧
    Store.resolve_referrer (S (size m)) user_wallet member_refs
      user_addresses st' = Some (r, st'').
Proof.
  intros Hst.
  destruct (store_resolve_referrer _ _ _ _ user_wallet st Hst)
    as (r & st' & Hrun & Hpure & Hg & Hsub).
  assert (holds member_refs user_addresses m a st') as Hst'.
  { destruct Hst as (Hroot & Hm & Ha). repeat split.
    - by rewrite Hg.
    - by eapply lookup_weaken.
    - by eapply lookup_weaken. }
  destruct (store_resolve_referrer _ _ _ _ user_wallet st' Hst')
    as (r' & st'' & Hrun' & Hpure' & _).
  assert (r' = r) as -> by congruence.
  by exists r, st', st''.
Qed.

Lemma resolve_referrer_frame_witness :
  ∃ r st' st'',
    Store.resolve_referrer (S (size cycle_ex)) "u" 0 1 store_ex
      = Some (r, st') ∧
    resolve_referrer "u" cycle_ex {[ "w" ]} = Some r ∧
    Store.globals st' = Store.globals store_ex ∧
    Store.objects store_ex ⊆ Store.objects st' ∧
    holds 0 1 cycle_ex {[ "w" ]} st' ∧
    Store.resolve_referrer (S (size cycle_ex)) "u" 0 1 st' = Some (r, st'').
Proof.
  apply (resolve_referrer_frame 0 1 cycle_ex {[ "w" ]} "u" store_ex).
  split; [reflexivity|]. split; reflexivity.
Defined.

Example store_run_ex :
  fst <$> Store.resolve_referrer 3 "u" 0 1 store_ex = Some FALLBACK_ROOT.
Proof. vm_compute. reflexivity. Qed.

(** * Lists, numbered rows and loops that append *)

Section lists.
Context {A B : Type}.

Lemma filter_fmap (P : B → Prop) `{!∀ y, Decision (P y)} (f : A → B)
    (l : list A) :
  filter P (f <$> l) = f <$> filter (λ x, P (f x)) l.
Proof.
  induction l as [|x l IH]; [done|]. rewrite fmap_cons, !filter_cons, IH.
  by destruct (decide (P (f x))).
Qed.

(** A [for] loop whose body appends [f x] when [P x] holds and leaves the
    list alone otherwise collects [f] over the elements satisfying [P]. *)
Lemma foldl_append (P : A → Prop) `{!∀ x, Decision (P x)} (f : A → B)
    (step : list B → A → list B) (l : list A) (acc : list B) :
  (∀ acc x, step acc x = if decide (P x) then acc ++ [f x] else acc) →
  foldl step acc l = acc ++ (f <$> filter P l).
Proof.
  intros Hstep. revert acc. induction l as [|x l IH]; intros acc; simpl.
  - by rewrite app_nil_r.
  - rewrite IH, Hstep, filter_cons. destruct (decide (P x)); [|done].
    by rewrite <- app_assoc.
Qed.

Lemma enumerate_cons (start : nat) (x : A) (l : list A) :
  enumerate start (x :: l) = (start, x) :: enumerate (S start) l.
Proof. reflexivity. Qed.

Lemma enumerate_fst (start : nat) (l : list A) :
  (enumerate start l).*1 = seq start (length l).
Proof. unfold enumerate. apply fst_zip. by rewrite length_seq. Qed.

Lemma enumerate_ge (start : nat) (l : list A) (p : nat * A) :
  p ∈ enumerate start l → start ≤ p.1.
Proof.
  intros Hp. assert (p.1 ∈ (enumerate start l).*1) as Hin.
  { apply list_elem_of_fmap. eauto. }
  rewrite enumerate_fst in Hin. apply elem_of_seq in Hin. lia.
Qed.

(** Exactly one numbered row carries a given row number. *)
Lemma enumerate_filter_row (start i : nat) (l : list A) :
  filter (λ p, p.1 = start + i) (enumerate start l)
  = match l !! i with Some x => [(start + i, x)] | None => [] end.
Proof.
  revert start i. induction l as [|x l IH]; intros start i; [done|].
  rewrite enumerate_cons, filter_cons. simpl. destruct i as [|i]; simpl.
  - rewrite decide_True by lia. rewrite Nat.add_0_r. f_equal.
    destruct (filter (λ p, p.1 = start) (enumerate (S start) l))
      as [|p k] eqn:E; [done|].
    assert (p ∈ filter (λ p, p.1 = start) (enumerate (S start) l)) as Hp.
    { rewrite E. left. }
    apply list_elem_of_filter in Hp as [Hp1 Hp2%enumerate_ge]. lia.
  - rewrite decide_False by lia.
    replace (start + S i) with (S start + i) by lia. apply IH.
Qed.

Lemma enumerate_lookup (start i : nat) (l : list A) (x : A) :
  l !! i = Some x → (start + i, x) ∈ enumerate start l.
Proof.
  intros Hx. pose proof (enumerate_filter_row start i l) as Hf.
  rewrite Hx in Hf.
  assert ((start + i, x) ∈ filter (λ p, p.1 = start + i) (enumerate start l))
    as Hin by (rewrite Hf; left).
  by apply list_elem_of_filter in Hin as [_ ?].
Qed.

Lemma enumerate_elem_of (start : nat) (l : list A) (p : nat * A) :
  p ∈ enumerate start l → ∃ i, p.1 = start + i ∧ l !! i = Some p.2.
Proof.
  revert start. induction l as [|x l IH]; intros start.
  - by intros ?%elem_of_nil.
  - rewrite enumerate_cons. intros [->|Hp]%elem_of_cons.
    + exists 0. simpl. split; [lia|done].
    + apply IH in Hp as (i & ? & ?). exists (S i). split; [lia|done].
Qed.

(** Row numbers grow along the numbered rows, and along any selection. *)
Lemma enumerate_filter_sorted (P : nat * A → Prop) `{!∀ p, Decision (P p)}
    (start : nat) (l : list A) :
  StronglySorted lt (filter P (enumerate start l)).*1.
Proof.
  revert start. induction l as [|x l IH]; intros start; [constructor|].
  rewrite enumerate_cons, filter_cons. destruct (decide (P (start, x))).
  - rewrite fmap_cons. constructor; [apply IH|].
    apply Forall_forall. intros n (q & -> & Hp)%list_elem_of_fmap.
    apply list_elem_of_filter in Hp as [_ Hp%enumerate_ge]. simpl. lia.
  - apply IH.
Qed.

Lemma filter_comm (P Q : A → Prop) `{!∀ x, Decision (P x), !∀ x, Decision (Q x)}
    (l : list A) :
  filter P (filter Q l) = filter Q (filter P l).
Proof. rewrite !list_filter_filter. apply list_filter_iff. tauto. Qed.

Lemma mapM_fmap_all (f : A → option B) (g : A → B) (l : list A) :
  (∀ x, x ∈ l → f x = Some (g x)) → mapM f l = Some (g <$> l).
Proof.
  intros Hf. apply mapM_Some_2, Forall2_fmap_r, Forall_Forall2_diag.
  by apply Forall_forall.
Qed.

(** Among pairs with distinct keys, selecting by key finds one pair. *)
Lemma filter_key_NoDup `{!EqDecision A} (l : list (A * B)) (k : A) (v : B) :
  NoDup l.*1 → (k, v) ∈ l → filter (λ p, p.1 = k) l = [(k, v)].
Proof.
  induction l as [|[k' v'] l IH]; [by intros _ ?%elem_of_nil|].
  rewrite fmap_cons, NoDup_cons, filter_cons. simpl.
  intros [Hk' Hnd] [[= <- <-]|Hin]%elem_of_cons.
  - rewrite decide_True by done. f_equal.
    destruct (filter (λ p, p.1 = k) l) as [|p q] eqn:E; [done|].
    assert (p ∈ filter (λ p, p.1 = k) l) as Hp by (rewrite E; left).
    apply list_elem_of_filter in Hp as [<- Hp]. destruct Hk'.
    apply list_elem_of_fmap. eauto.
  - rewrite decide_False; [by apply IH|].
    intros ->. destruct Hk'. apply list_elem_of_fmap. by exists (k, v).
Qed.

End lists.

(** When the rows that satisfy [P] are collected into entries that keep
    their row number, the entries with a given row number are the one of
    that row, if it satisfies [P], and no other. *)
Lemma filter_row_fmap {A B} (P : nat * A → Prop) `{!∀ p, Decision (P p)}
    (f : nat * A → B) (row_of : B → nat) (start i : nat) (l : list A) :
  (∀ p, row_of (f p) = p.1) →
  filter (λ e, row_of e = start + i) (f <$> filter P (enumerate start l))
  = match l !! i with
    | Some x => if decide (P (start + i, x)) then [f (start + i, x)] else []
    | None => []
    end.
Proof.
  intros Hrow. rewrite filter_fmap.
  rewrite (list_filter_iff _ (λ p, p.1 = start + i))
    by (intros p; by rewrite Hrow).
  rewrite filter_comm, enumerate_filter_row.
  destruct (l !! i) as [x|]; [|done].
  rewrite filter_cons, filter_nil. by case_decide.
Qed.

(** * check_csv_duplicates.py: the scan, the counter and the two reports *)

Section check_csv_duplicates.
Import CheckCsvDuplicates.

Lemma scan_row_wallets (st : scan) (p : nat * csv_row) :
  wallets (scan_row st p)
  = wallets st ++ (if decide (cell p.2 "User Name" = "") then []
                   else [cell p.2 "User Name"]).
Proof.
  destruct p as [n row]. unfold scan_row. simpl.
  repeat case_decide; simpl; by rewrite ?app_nil_r.
Qed.

Lemma scan_row_wallet_to_row (st : scan) (p : nat * csv_row) (w : string) :
  wallet_to_row (scan_row st p) !! w
  = if decide (cell p.2 "User Name" = w ∧ w ≠ "")
    then Some (default [] (wallet_to_row st !! w) ++ [p.1])
    else wallet_to_row st !! w.
Proof.
  destruct p as [n row]. unfold scan_row. simpl.
  set (u := cell row "User Name").
  assert (∀ st' : scan,
    wallet_to_row (if decide (cell row "Referrer_User Name" = "") then st'
                   else {| wallets := wallets st';
                           referrers := referrers st' ++
                             [cell row "Referrer_User Name"];
                           wallet_to_row := wallet_to_row st' |})
    = wallet_to_row st') as -> by (intros; by case_decide).
  destruct (decide (u = "")) as [Hu|Hu].
  { rewrite decide_False; [done|]. intros [? ?]. congruence. }
  simpl. destruct (decide (u = w)) as [<-|Hne].
  - rewrite (decide_True (P := _ ∧ _)) by done. rewrite lookup_alter_eq.
    destruct (wallet_to_row st !! u) as [l|] eqn:E.
    + rewrite decide_False by done. by rewrite E.
    + rewrite decide_True by done. by rewrite lookup_insert_eq.
  - rewrite (decide_False (P := _ ∧ _)) by (intros [? ?]; done).
    rewrite lookup_alter_ne by done.
    case_decide; [by rewrite lookup_insert_ne|done].
Qed.

Lemma scan_wallets (l : list (nat * csv_row)) (st : scan) :
  wallets (foldl scan_row st l)
  = wallets st ++ filter (λ w, w ≠ "") ((λ p, cell p.2 "User Name") <$> l).
Proof.
  revert st. induction l as [|p l IH]; intros st; simpl.
  - by rewrite app_nil_r.
  - rewrite IH, scan_row_wallets, filter_cons.
    case_decide; destruct (decide (_ ≠ _)); try done.
    + by rewrite app_nil_r.
    + by rewrite <- app_assoc.
Qed.

Lemma rows_of_cons (w : string) (p : nat * csv_row) (l : list (nat * csv_row)) :
  rows_of w (p :: l)
  = if decide (cell p.2 "User Name" = w) then p.1 :: rows_of w l
    else rows_of w l.
Proof. unfold rows_of. rewrite filter_cons. by case_decide. Qed.

Lemma scan_wallet_to_row (l : list (nat * csv_row)) (st : scan) (w : string) :
  wallet_to_row (foldl scan_row st l) !! w
  = if decide (w = "" ∨ rows_of w l = []) then wallet_to_row st !! w
    else Some (default [] (wallet_to_row st !! w) ++ rows_of w l).
Proof.
  revert st. induction l as [|p l IH]; intros st; simpl.
  - rewrite decide_True; [done|by right].
  - rewrite IH, scan_row_wallet_to_row, rows_of_cons.
    destruct (decide (cell p.2 "User Name" = w)) as [Hp|Hp];
      destruct (decide (w = "")) as [Hw|Hw];
      destruct (rows_of w l) as [|n k] eqn:E;
      repeat case_decide; simpl; rewrite <- ?app_assoc; try done;
      exfalso; intuition congruence.
Qed.

Lemma wallets_scan_rows (rows : list csv_row) :
  wallets (scan_rows rows)
  = filter (λ w, w ≠ "") ((λ row, cell row "User Name") <$> rows).
Proof.
  unfold scan_rows. rewrite scan_wallets. simpl. f_equal.
  rewrite <- (snd_zip (seq 2 (length rows)) rows) at 2
    by (by rewrite length_seq).
  unfold enumerate. by rewrite <- list_fmap_compose.
Qed.

Lemma wallet_to_row_scan_rows (rows : list csv_row) (w : string) :
  wallet_to_row (scan_rows rows) !! w
  = if decide (w = "" ∨ rows_of w (enumerate 2 rows) = []) then None
    else Some (rows_of w (enumerate 2 rows)).
Proof. unfold scan_rows. by rewrite scan_wallet_to_row. Qed.

Lemma Counter_foldl (l : list string) (c : gmap string nat) (w : string) :
  foldl (λ c w, <[w := S (default 0 (c !! w))]> c) c l !! w
  = if decide (w ∈ l)
    then Some (default 0 (c !! w) + length (filter (λ x, x = w) l))
    else c !! w.
Proof.
  revert c. induction l as [|x l IH]; intros c; simpl.
  - done.
  - rewrite IH, filter_cons. destruct (decide (x = w)) as [->|Hx].
    + rewrite lookup_insert_eq. rewrite (decide_True (P := w ∈ w :: l)) by left.
      simpl. case_decide; f_equal; [lia|].
      destruct (filter (λ x, x = w) l) as [|y k] eqn:E; [simpl; lia|].
      assert (y ∈ filter (λ x, x = w) l) as Hy by (rewrite E; left).
      apply list_elem_of_filter in Hy as [-> ?]. done.
    + rewrite lookup_insert_ne by done.
      destruct (decide (w ∈ l)).
      * by rewrite decide_True by (by right).
      * rewrite decide_False; [done|]. by intros [?|?]%elem_of_cons.
Qed.

Lemma Counter_lookup (l : list string) (w : string) :
  Counter l !! w
  = if decide (w ∈ l) then Some (length (filter (λ x, x = w) l)) else None.
Proof. unfold Counter. by rewrite Counter_foldl, lookup_empty. Qed.

(** A wallet is counted once for every row that names it. *)
Lemma count_rows_of (w : string) (l : list (nat * csv_row)) :
  w ≠ "" →
  length (filter (λ x, x = w)
            (filter (λ w, w ≠ "") ((λ p, cell p.2 "User Name") <$> l)))
  = length (rows_of w l).
Proof.
  intros Hw. unfold rows_of. rewrite length_fmap.
  induction l as [|p l IH]; [done|].
  rewrite fmap_cons, !filter_cons.
  destruct (decide (cell p.2 "User Name" = w)) as [->|Hp].
  - rewrite decide_True by done. rewrite filter_cons, decide_True by done.
    simpl. by rewrite IH.
  - case_decide; [|done]. by rewrite filter_cons, decide_False.
Qed.

Lemma wallet_counts_lookup (rows : list csv_row) (w : string) :
  wallet_counts rows !! w
  = if decide (w = "" ∨ rows_of w (enumerate 2 rows) = []) then None
    else Some (length (rows_of w (enumerate 2 rows))).
Proof.
  unfold wallet_counts, scan_rows. rewrite Counter_lookup, scan_wallets. simpl.
  set (l := enumerate 2 rows).
  destruct (decide (w = "")) as [->|Hw].
  { rewrite (decide_True (P := _ ∨ _)) by (by left).
    rewrite decide_False; [done|]. by intros [? _]%list_elem_of_filter. }
  pose proof (count_rows_of w l Hw) as Hcount.
  destruct (decide (w ∈ _)) as [Hin|Hnin].
  - rewrite decide_False; [by rewrite Hcount|].
    intros [?|Hnil]; [done|]. rewrite Hnil in Hcount.
    destruct (filter (λ x, x = w) _) as [|y k] eqn:E; [|done].
    eapply (filter_nil_not_elem_of _ _ w) in E; done.
  - rewrite decide_True; [done|]. right.
    destruct (rows_of w l) as [|n k] eqn:E; [done|]. simpl in Hcount.
    destruct (filter (λ x, x = w) _) as [|y k'] eqn:E'; [done|].
    assert (y ∈ y :: k') as Hy by left. rewrite <- E' in Hy.
    by apply list_elem_of_filter in Hy as [-> ?].
Qed.

Lemma duplicates_lookup (rows : list csv_row) (w : string) (k : nat) :
  duplicates rows !! w = Some k ↔
  w ≠ "" ∧ k = length (rows_of w (enumerate 2 rows)) ∧ 1 < k.
Proof.
  unfold duplicates. rewrite map_lookup_filter_Some, wallet_counts_lookup. simpl.
  case_decide as H.
  - split; [by intros [? _]|]. intros (? & -> & ?).
    destruct H as [?|H]; [done|]. rewrite H in *. simpl in *. lia.
  - split.
    + intros [[= <-] ?]. split; [|done]. intros ->. destruct H. by left.
    + intros (? & -> & ?). done.
Qed.

#[local] Instance tuple_le_trans : Transitive tuple_le.
Proof.
  intros [a1 a2] [b1 b2] [c1 c2]. unfold tuple_le. simpl.
  destruct (decide (a1 = b1)) as [->|Hab];
    destruct (decide (b1 = c1)) as [->|Hbc].
  - lia.
  - auto.
  - by rewrite decide_False.
  - intros Hle1 Hle2. destruct (decide (a1 = c1)) as [->|Hac].
    + destruct Hab. by apply (anti_symm String.le).
    + by trans b1.
Qed.

#[local] Instance tuple_le_total : Total tuple_le.
Proof.
  intros [a1 a2] [b1 b2]. unfold tuple_le. simpl.
  destruct (decide (a1 = b1)) as [->|Hab].
  - rewrite ?decide_True by done. lia.
  - rewrite ?decide_False by done. apply (total String.le).
Qed.

#[local] Instance tuple_le_anti_symm : AntiSymm (=) tuple_le.
Proof.
  intros [a1 a2] [b1 b2]. unfold tuple_le. simpl.
  destruct (decide (a1 = b1)) as [->|Hab].
  - rewrite ?decide_True by done. intros. f_equal. lia.
  - rewrite ?decide_False by done. intros Hle1 Hle2.
    destruct Hab. by apply (anti_symm String.le).
Qed.

Lemma sorted_Permutation (items : list (string * nat)) : sorted items ≡ₚ items.
Proof. apply merge_sort_Permutation. Qed.

(** [sorted] does not depend on the order its argument comes in. *)
Lemma sorted_unique (items items' : list (string * nat)) :
  items ≡ₚ items' → sorted items = sorted items'.
Proof.
  intros Hperm. apply (StronglySorted_unique tuple_le).
  - apply StronglySorted_merge_sort; apply _.
  - apply StronglySorted_merge_sort; apply _.
  - by rewrite !sorted_Permutation.
Qed.

(** With no key twice, the sorted items go strictly upwards by key. *)
Lemma sorted_keys (items : list (string * nat)) :
  NoDup items.*1 →
  StronglySorted (λ x y, str_lt x.1 y.1) (sorted items).
Proof.
  intros Hnd.
  assert (NoDup (sorted items).*1) as Hnd' by (by rewrite sorted_Permutation).
  assert (StronglySorted tuple_le (sorted items)) as Hs
    by (apply StronglySorted_merge_sort; apply _).
  clear Hnd. induction Hs as [|x l _ IH Hall]; [constructor|].
  rewrite fmap_cons in Hnd'. apply NoDup_cons in Hnd' as [Hx Hnd'].
  constructor; [by apply IH|].
  apply Forall_forall. intros y Hy.
  rewrite Forall_forall in Hall. specialize (Hall y Hy).
  assert (x.1 ≠ y.1) as Hne.
  { intros Heq. apply Hx. rewrite Heq. apply list_elem_of_fmap. eauto. }
  unfold tuple_le in Hall. rewrite decide_False in Hall by done. by split.
Qed.

Lemma report_items_Some (rows : list csv_row) (items : list (string * nat)) :
  items ≡ₚ map_to_list (duplicates rows) →
  report_items (wallet_to_row (scan_rows rows)) items
  = Some (duplicate_of (enumerate 2 rows)
            <$> sorted (map_to_list (duplicates rows))).
Proof.
  intros Hperm. unfold report_items. rewrite (sorted_unique _ _ Hperm).
  apply mapM_fmap_all. intros [w k] Hwk. simpl.
  rewrite sorted_Permutation in Hwk.
  apply elem_of_map_to_list, duplicates_lookup in Hwk as (Hw & -> & Hlen).
  rewrite wallet_to_row_scan_rows. rewrite decide_False; [done|].
  intros [?|Hnil]; [done|]. rewrite Hnil in Hlen. simpl in Hlen. lia.
Qed.

Lemma duplicates_report_Some (rows : list csv_row) :
  duplicates_report rows
  = Some (duplicate_of (enumerate 2 rows)
            <$> sorted (map_to_list (duplicates rows))).
Proof. by apply report_items_Some. Qed.

End check_csv_duplicates.

(** C6, as the code has it: when k >= 2 rows carry the same user name (the
    trimmed cell, compared as written), the duplicates report has exactly
    one entry for that name; the entry gives the count k and the row
    numbers of all k rows, in input order. *)
Theorem duplicates_report_complete (rows : list csv_row) (w : string) :
  w ≠ "" →
  2 ≤ length (rows_of w (enumerate 2 rows)) →
  ∃ report,
    CheckCsvDuplicates.duplicates_report rows = Some report ∧
    filter (λ d, CheckCsvDuplicates.dup_wallet d = w) report
    = [ {| CheckCsvDuplicates.dup_wallet := w;
           CheckCsvDuplicates.dup_count :=
             length (rows_of w (enumerate 2 rows));
           CheckCsvDuplicates.dup_rows := rows_of w (enumerate 2 rows) |} ].
Proof.
  intros Hw Hlen. eexists. split; [apply duplicates_report_Some|].
  rewrite filter_fmap. simpl.
  erewrite filter_key_NoDup; [done| |].
  - rewrite sorted_Permutation. apply NoDup_fst_map_to_list.
  - rewrite sorted_Permutation. apply elem_of_map_to_list, duplicates_lookup.
    repeat split; [done|lia].
Qed.

Lemma duplicates_report_complete_witness :
  ∃ report,
    CheckCsvDuplicates.duplicates_report
      [urow "b" "a"; urow "a" ""; urow " b" "a"; urow "b " ""] = Some report ∧
    filter (λ d, CheckCsvDuplicates.dup_wallet d = "b") report
    = [ {| CheckCsvDuplicates.dup_wallet := "b";
           CheckCsvDuplicates.dup_count := 3;
           CheckCsvDuplicates.dup_rows := [2; 4; 5] |} ].
Proof.
  apply (duplicates_report_complete
           [urow "b" "a"; urow "a" ""; urow " b" "a"; urow "b " ""] "b").
  - discriminate.
  - vm_compute. lia.
Defined.

(** C6 as stated fails: two rows whose identifiers differ only in case share
    a canonical (lower-cased) identifier, yet the report is empty. *)
Lemma duplicates_report_case_sensitive :
  Str.lower "0xABC" = Str.lower "0xabc" ∧
  CheckCsvDuplicates.duplicates_report [urow "0xABC" ""; urow "0xabc" ""]
  = Some [].
Proof. split; vm_compute; reflexivity. Qed.

(** * The missing-sponsor lists of both scripts *)

Section missing.

Local Abbreviation user_name p := (cell (snd p) "User Name").
Local Abbreviation referrer_name p := (cell (snd p) "Referrer_User Name").

Lemma missing_filter (rows : list csv_row) :
  CheckCsvDuplicates.missing rows
  = missing_entry_of
      <$> filter (is_missing (CheckCsvDuplicates.wallet_set rows))
            (enumerate 2 rows).
Proof.
  unfold CheckCsvDuplicates.missing.
  rewrite (foldl_append (is_missing (CheckCsvDuplicates.wallet_set rows))
             missing_entry_of); [done|].
  intros acc [n row]. unfold CheckCsvDuplicates.missing_row, is_missing. simpl.
  repeat case_decide; try done; exfalso; intuition.
Qed.

Lemma elem_of_wallet_set (rows : list csv_row) (w : string) :
  w ∈ CheckCsvDuplicates.wallet_set rows ↔
  w ≠ "" ∧ ∃ row, row ∈ rows ∧ cell row "User Name" = w.
Proof.
  unfold CheckCsvDuplicates.wallet_set.
  rewrite elem_of_list_to_set, wallets_scan_rows, list_elem_of_filter,
    list_elem_of_fmap.
  naive_solver.
Qed.

(** The findings that carry a given row number: the one of that row, if the
    row fails the test, and no other. *)
Lemma missing_at_row (rows : list csv_row) (i : nat) :
  filter (λ e, CheckCsvDuplicates.row e = 2 + i) (CheckCsvDuplicates.missing rows)
  = match rows !! i with
    | Some row =>
        if decide (is_missing (CheckCsvDuplicates.wallet_set rows) (2 + i, row))
        then [missing_entry_of (2 + i, row)] else []
    | None => []
    end.
Proof.
  rewrite missing_filter. by apply filter_row_fmap.
Qed.

Lemma read_rows_foldl (l : list (nat * csv_row))
    (st : list FindMissingSponsors.member * gset string) :
  foldl FindMissingSponsors.read_row st l
  = ( st.1 ++ (member_of <$> filter (λ p, user_name p ≠ "") l),
      list_to_set (Str.lower <$> filter (λ w, w ≠ "") ((λ p, user_name p) <$> l))
        ∪ st.2 ).
Proof.
  revert st. induction l as [|[n row] l IH]; intros [ms ws].
  - simpl. f_equal; [by rewrite app_nil_r | set_solver].
  - cbn [foldl]. rewrite IH, fmap_cons, !filter_cons.
    unfold FindMissingSponsors.read_row. simpl.
    destruct (decide (cell row "User Name" = "")) as [He|Hne].
    + rewrite !decide_False by (by intros ?). done.
    + rewrite !decide_True by done. simpl. f_equal.
      * by rewrite <- app_assoc.
      * set_solver.
Qed.

Lemma members_filter (rows : list csv_row) :
  FindMissingSponsors.members rows
  = member_of <$> filter (λ p, user_name p ≠ "") (enumerate 2 rows).
Proof.
  unfold FindMissingSponsors.members, FindMissingSponsors.read_rows.
  by rewrite read_rows_foldl.
Qed.

(** [all_wallets] holds the lower-cased user names. *)
Lemma elem_of_all_wallets (rows : list csv_row) (x : string) :
  x ∈ FindMissingSponsors.all_wallets rows ↔
  ∃ row, row ∈ rows ∧ cell row "User Name" ≠ "" ∧
         Str.lower (cell row "User Name") = x.
Proof.
  unfold FindMissingSponsors.all_wallets, FindMissingSponsors.read_rows.
  rewrite read_rows_foldl. simpl.
  rewrite elem_of_union, elem_of_list_to_set, list_elem_of_fmap.
  split.
  - intros [(w & -> & Hw)|?]; [|set_solver].
    apply list_elem_of_filter in Hw as [Hne Hw].
    apply list_elem_of_fmap in Hw as ([n row] & -> & Hin).
    apply enumerate_elem_of in Hin as (i & _ & Hin). simpl in *.
    exists row. split; [|done]. by eapply list_elem_of_lookup_2.
  - intros (row & Hin & Hne & <-). left. eexists. split; [done|].
    apply list_elem_of_filter. split; [done|].
    apply list_elem_of_lookup in Hin as [i Hi].
    apply list_elem_of_fmap. exists (2 + i, row). split; [done|].
    by apply enumerate_lookup.
Qed.

Lemma missing_sponsors_filter (rows : list csv_row) :
  FindMissingSponsors.missing_sponsors rows
  = missing_sponsor_of
      <$> filter (is_missing_sponsor (FindMissingSponsors.all_wallets rows))
            (FindMissingSponsors.members rows).
Proof.
  unfold FindMissingSponsors.missing_sponsors.
  rewrite (foldl_append
             (is_missing_sponsor (FindMissingSponsors.all_wallets rows))
             missing_sponsor_of); [done|].
  intros acc m. unfold FindMissingSponsors.check_member, is_missing_sponsor.
  repeat case_decide; try done; exfalso; intuition.
Qed.

Lemma missing_sponsors_rows (rows : list csv_row) :
  FindMissingSponsors.missing_sponsors rows
  = (missing_sponsor_of ∘ member_of)
      <$> filter (λ p, is_missing_sponsor (FindMissingSponsors.all_wallets rows)
                         (member_of p) ∧ user_name p ≠ "")
            (enumerate 2 rows).
Proof.
  rewrite missing_sponsors_filter, members_filter, filter_fmap.
  by rewrite list_filter_filter, <- list_fmap_compose.
Qed.

Lemma missing_sponsors_at_row (rows : list csv_row) (i : nat) :
  filter (λ e, FindMissingSponsors.Row e = 2 + i)
    (FindMissingSponsors.missing_sponsors rows)
  = match rows !! i with
    | Some row =>
        if decide (is_missing_sponsor (FindMissingSponsors.all_wallets rows)
                     (member_of (2 + i, row)) ∧
                   cell row "User Name" ≠ "")
        then [missing_sponsor_of (member_of (2 + i, row))] else []
    | None => []
    end.
Proof.
  rewrite missing_sponsors_rows.
  by rewrite (filter_row_fmap _ (missing_sponsor_of ∘ member_of)
                FindMissingSponsors.Row 2 i rows).
Qed.

End missing.

(** * The referral map *)

Section load.

Lemma load_member_row_lookup (mapping : gmap string string) (row : csv_row)
    (w : string) :
  load_member_row mapping row !! w
  = if decide (cell row "wallet_address" = w ∧ w ≠ "")
    then Some (cell row "referrer_wallet") else mapping !! w.
Proof.
  unfold load_member_row.
  destruct (decide (cell row "wallet_address" = "")) as [He|Hne].
  - rewrite decide_False; [done|]. intros [? ?]. congruence.
  - destruct (decide (cell row "wallet_address" = w)) as [<-|Hw].
    + by rewrite decide_True, lookup_insert_eq.
    + rewrite decide_False by (by intros [? _]). by rewrite lookup_insert_ne.
Qed.

(** Rows about other wallets leave the entry of [w] alone. *)
Lemma load_other_rows (rows : list csv_row) (mapping : gmap string string)
    (w : string) :
  (∀ row, row ∈ rows → cell row "wallet_address" ≠ w) →
  foldl load_member_row mapping rows !! w = mapping !! w.
Proof.
  revert mapping. induction rows as [|row rows IH]; intros mapping Hrows; [done|].
  simpl. rewrite IH by (intros; apply Hrows; by right).
  rewrite load_member_row_lookup, decide_False; [done|].
  intros [? _]. by eapply Hrows; [left|].
Qed.

(** The keys are the non-empty trimmed wallet cells, as written. *)
Lemma load_keys (rows : list csv_row) (mapping : gmap string string)
    (w : string) :
  is_Some (foldl load_member_row mapping rows !! w) ↔
  is_Some (mapping !! w) ∨
  (w ≠ "" ∧ ∃ row, row ∈ rows ∧ cell row "wallet_address" = w).
Proof.
  revert mapping. induction rows as [|row rows IH]; intros mapping; simpl.
  - split; [by left|]. intros [?|(_ & row & ?%elem_of_nil & _)]; done.
  - rewrite IH, load_member_row_lookup. split.
    + intros [Hsome|(Hw & row' & Hin & Hrow')].
      * case_decide as Hd; [|by left].
        destruct Hd as [? ?]. right. split; [done|]. exists row.
        split; [left|done].
      * right. split; [done|]. exists row'. split; [by right|done].
    + intros [Hsome|(Hw & row' & [->|Hin]%elem_of_cons & Hrow')].
      * left. by case_decide.
      * left. by rewrite decide_True.
      * right. eauto.
Qed.

End load.

(** C3, as the code has it: after [load_member_referrers] a wallet maps to
    one referrer, the one of the LAST row with that wallet (the trimmed
    cell, compared as written): each later row overwrites the entry. *)
Theorem load_member_referrers_last_wins (before after : list csv_row)
    (row : csv_row) :
  cell row "wallet_address" ≠ "" →
  (∀ row', row' ∈ after →
           cell row' "wallet_address" ≠ cell row "wallet_address") →
  load_member_referrers (before ++ row :: after)
    !! cell row "wallet_address"
  = Some (cell row "referrer_wallet").
Proof.
  intros Hne Hafter. unfold load_member_referrers.
  rewrite foldl_app. simpl. rewrite load_other_rows by done.
  by rewrite load_member_row_lookup, decide_True.
Qed.

Lemma load_member_referrers_last_wins_witness :
  load_member_referrers
    ([mrow "0xA" "0xR1"; mrow "0xB" "0xA"] ++ mrow " 0xA" "0xR2" :: [mrow "0xC" ""])
    !! cell (mrow " 0xA" "0xR2") "wallet_address"
  = Some (cell (mrow " 0xA" "0xR2") "referrer_wallet").
Proof.
  apply (load_member_referrers_last_wins
           [mrow "0xA" "0xR1"; mrow "0xB" "0xA"] [mrow "0xC" ""]
           (mrow " 0xA" "0xR2")).
  - vm_compute. discriminate.
  - intros row' Hin. apply list_elem_of_singleton in Hin. subst row'.
    vm_compute. discriminate.
Defined.

(** C3 as stated fails: with two rows for one wallet the map does not hold
    the referrer of the first-seen row. *)
Lemma load_member_referrers_not_first_seen :
  load_member_referrers [mrow "0xA" "0xR1"; mrow "0xA" "0xR2"] !! "0xA"
  ≠ Some (cell (mrow "0xA" "0xR1") "referrer_wallet").
Proof. vm_compute. discriminate. Qed.

(** C5, as the code has it: a row whose referrer is not empty and whose
    lower-cased referrer is not among the lower-cased user names gets
    exactly one entry in the missing list of [check_csv_duplicates.py]
    (which exempts a row naming itself; the referrer is then asked to
    differ from the row's own user name) and, when the row has a user name,
    exactly one entry in the missing list of [find_missing_sponsors.py]
    (which has no such exemption to ask for).  A row that names itself as
    referrer gets no entry: in [check_csv_duplicates.py] when referrer and
    user name are the same string, in [find_missing_sponsors.py] also when
    they differ in case only. *)
Theorem dangling_referrer_reported (rows : list csv_row) (i : nat)
    (row : csv_row) :
  rows !! i = Some row →
  (cell row "Referrer_User Name" ≠ "" →
   Str.lower (cell row "Referrer_User Name")
     ∉ FindMissingSponsors.all_wallets rows →
   Str.lower (cell row "Referrer_User Name")
     ≠ Str.lower (cell row "User Name") →
   filter (λ e, CheckCsvDuplicates.row e = 2 + i)
     (CheckCsvDuplicates.missing rows)
   = [ {| CheckCsvDuplicates.row := 2 + i;
          CheckCsvDuplicates.user := cell row "User Name";
          CheckCsvDuplicates.referrer := cell row "Referrer_User Name" |} ]) ∧
  (cell row "User Name" ≠ "" →
   cell row "Referrer_User Name" ≠ "" →
   Str.lower (cell row "Referrer_User Name")
     ∉ FindMissingSponsors.all_wallets rows →
   filter (λ e, FindMissingSponsors.Row e = 2 + i)
     (FindMissingSponsors.missing_sponsors rows)
   = [ {| FindMissingSponsors.Row := 2 + i;
          FindMissingSponsors.Member_Wallet := cell row "User Name";
          FindMissingSponsors.Missing_Sponsor := cell row "Referrer_User Name";
          FindMissingSponsors.Activation_Sequence :=
            cell row "Activation sequence" |} ]) ∧
  (cell row "Referrer_User Name" = cell row "User Name" →
   filter (λ e, CheckCsvDuplicates.row e = 2 + i)
     (CheckCsvDuplicates.missing rows) = []) ∧
  (Str.lower (cell row "Referrer_User Name")
     = Str.lower (cell row "User Name") →
   filter (λ e, FindMissingSponsors.Row e = 2 + i)
     (FindMissingSponsors.missing_sponsors rows) = []).
Proof.
  intros Hrow. rewrite missing_at_row, missing_sponsors_at_row, Hrow.
  unfold is_missing, is_missing_sponsor. simpl.
  repeat split.
  - intros Hne Hkey Hself. rewrite decide_True; [done|].
    repeat split; [done|congruence|].
    intros (_ & row' & Hin & Huser)%elem_of_wallet_set.
    apply Hkey, elem_of_all_wallets. exists row'.
    rewrite Huser. done.
  - intros Huser Hne Hkey. by rewrite decide_True.
  - intros Hself. rewrite decide_False; [done|]. by intros (_ & ? & _).
  - intros Hself. rewrite decide_False; [done|].
    intros [[_ Hkey] Huser]. apply Hkey, elem_of_all_wallets.
    exists row. split; [by eapply list_elem_of_lookup_2|done].
Qed.

Lemma dangling_referrer_reported_witness :
  filter (λ e, CheckCsvDuplicates.row e = 3)
    (CheckCsvDuplicates.missing [urow "0xA" "0xA"; urow "0xB" "0xZ"])
  = [ {| CheckCsvDuplicates.row := 3;
         CheckCsvDuplicates.user := "0xB";
         CheckCsvDuplicates.referrer := "0xZ" |} ] ∧
  filter (λ e, FindMissingSponsors.Row e = 3)
    (FindMissingSponsors.missing_sponsors [urow "0xA" "0xA"; urow "0xB" "0xZ"])
  = [ {| FindMissingSponsors.Row := 3;
         FindMissingSponsors.Member_Wallet := "0xB";
         FindMissingSponsors.Missing_Sponsor := "0xZ";
         FindMissingSponsors.Activation_Sequence := "" |} ].
Proof.
  destruct (dangling_referrer_reported
              [urow "0xA" "0xA"; urow "0xB" "0xZ"] 1 (urow "0xB" "0xZ")
              eq_refl) as (Hcheck & Hfind & _).
  split.
  - apply Hcheck.
    + vm_compute. discriminate.
    + apply (proj1 (bool_decide_eq_false _)). vm_compute. reflexivity.
    + vm_compute. discriminate.
  - apply Hfind.
    + vm_compute. discriminate.
    + vm_compute. discriminate.
    + apply (proj1 (bool_decide_eq_false _)). vm_compute. reflexivity.
Defined.

(** C5 as stated fails on the exemption: in [check_csv_duplicates.py] a row
    whose referrer is its own user name in another case is not exempt. *)
Lemma missing_self_reference_case_sensitive :
  Str.lower (cell (urow "0xAbc" "0xabc") "Referrer_User Name")
  = Str.lower (cell (urow "0xAbc" "0xabc") "User Name") ∧
  CheckCsvDuplicates.missing [urow "0xAbc" "0xabc"]
  = [ {| CheckCsvDuplicates.row := 2;
         CheckCsvDuplicates.user := "0xAbc";
         CheckCsvDuplicates.referrer := "0xabc" |} ].
Proof. split; vm_compute; reflexivity. Qed.


(** * The order of the reports *)

(** C8, as the code has it: the duplicates report lists the duplicated
    wallets in ascending string order (it is [sorted]), whatever order the
    dict is enumerated in; each entry lists its row numbers in input order;
    the entries of both missing lists come in input order. *)
Theorem reports_order (rows : list csv_row) :
  ∃ report,
    CheckCsvDuplicates.duplicates_report rows = Some report ∧
    StronglySorted
      (λ d1 d2, str_lt (CheckCsvDuplicates.dup_wallet d1)
                       (CheckCsvDuplicates.dup_wallet d2)) report ∧
    Forall (λ d, CheckCsvDuplicates.dup_rows d
                 = rows_of (CheckCsvDuplicates.dup_wallet d) (enumerate 2 rows) ∧
                 StronglySorted lt (CheckCsvDuplicates.dup_rows d)) report ∧
    StronglySorted lt
      (CheckCsvDuplicates.row <$> CheckCsvDuplicates.missing rows) ∧
    StronglySorted lt
      (FindMissingSponsors.Row <$> FindMissingSponsors.missing_sponsors rows) ∧
    (∀ items,
       items ≡ₚ map_to_list (CheckCsvDuplicates.duplicates rows) →
       CheckCsvDuplicates.report_items
         (CheckCsvDuplicates.wallet_to_row (CheckCsvDuplicates.scan_rows rows))
         items = Some report).
Proof.
  eexists. split; [apply duplicates_report_Some|]. repeat split.
  - eapply StronglySorted_fmap; [|apply sorted_keys, NoDup_fst_map_to_list].
    by intros [w1 k1] [w2 k2].
  - apply Forall_fmap, Forall_forall. intros [w k] _. simpl. split; [done|].
    apply enumerate_filter_sorted.
  - rewrite missing_filter, <- list_fmap_compose.
    apply (enumerate_filter_sorted _ 2 rows).
  - rewrite missing_sponsors_rows, <- list_fmap_compose.
    apply (enumerate_filter_sorted _ 2 rows).
  - intros items Hperm. by apply report_items_Some.
Qed.

Lemma reports_order_witness :
  ∃ report,
    CheckCsvDuplicates.duplicates_report order_ex = Some report ∧
    CheckCsvDuplicates.report_items
      (CheckCsvDuplicates.wallet_to_row (CheckCsvDuplicates.scan_rows order_ex))
      [("b", 2); ("a", 2)] = Some report ∧
    CheckCsvDuplicates.report_items
      (CheckCsvDuplicates.wallet_to_row (CheckCsvDuplicates.scan_rows order_ex))
      [("a", 2); ("b", 2)] = Some report.
Proof.
  destruct (reports_order order_ex) as (report & Hrep & _ & _ & _ & _ & Hany).
  exists report. split; [exact Hrep|].
  split; apply Hany; vm_compute; first [reflexivity | apply perm_swap].
Defined.

(** C8 as stated fails: "b" is duplicated first in the input (rows 2, 3)
    and "a" after it (rows 4, 5), yet the entry of "a" comes first: the
    entries are not in the order in which the wallets first occur. *)
Lemma duplicates_report_not_input_order :
  CheckCsvDuplicates.duplicates_report order_ex
  = Some [ {| CheckCsvDuplicates.dup_wallet := "a";
              CheckCsvDuplicates.dup_count := 2;
              CheckCsvDuplicates.dup_rows := [4; 5] |};
           {| CheckCsvDuplicates.dup_wallet := "b";
              CheckCsvDuplicates.dup_count := 2;
              CheckCsvDuplicates.dup_rows := [2; 3] |} ] ∧
  ¬ ∃ report,
      CheckCsvDuplicates.duplicates_report order_ex = Some report ∧
      StronglySorted lt
        ((λ d, default 0 (head (CheckCsvDuplicates.dup_rows d))) <$> report).
Proof.
  assert (CheckCsvDuplicates.duplicates_report order_ex
          = Some [ CheckCsvDuplicates.Duplicate "a" 2 [4; 5];
                   CheckCsvDuplicates.Duplicate "b" 2 [2; 3] ]) as Hrep
    by (vm_compute; reflexivity).
  split; [exact Hrep|]. intros (report & Hrep' & Hsorted).
  rewrite Hrep in Hrep'. injection Hrep' as <-. simpl in Hsorted.
  apply StronglySorted_inv in Hsorted as [_ Hall].
  apply Forall_cons in Hall as [Hlt _]. lia.
Qed.

(** * Cycles *)

Section cycle.
Context (A B C : string).
Context (HA : Str.strip A = A) (HB : Str.strip B = B) (HC : Str.strip C = C).

Lemma cell_urow_user (u r : string) :
  Str.strip u = u → cell (urow u r) "User Name" = u.
Proof. intros Hu. unfold cell, urow. by rewrite lookup_insert_eq. Qed.

Lemma cell_urow_referrer (u r : string) :
  Str.strip r = r → cell (urow u r) "Referrer_User Name" = r.
Proof.
  intros Hr. unfold cell, urow.
  by rewrite lookup_insert_ne, lookup_singleton_eq.
Qed.

Lemma cycle_rows_of (w : string) :
  A ≠ B → B ≠ C → C ≠ A → length (rows_of w (enumerate 2 (cycle_rows A B C))) ≤ 1.
Proof.
  intros. unfold cycle_rows, rows_of. rewrite !enumerate_cons.
  rewrite !filter_cons. simpl. rewrite !cell_urow_user by done.
  repeat case_decide; simpl; try lia; congruence.
Qed.

Lemma cycle_duplicates : A ≠ B → B ≠ C → C ≠ A →
  CheckCsvDuplicates.duplicates_report (cycle_rows A B C) = Some [].
Proof.
  intros HAB HBC HCA. rewrite duplicates_report_Some.
  assert (CheckCsvDuplicates.duplicates (cycle_rows A B C) = ∅) as ->; [|done].
  apply map_eq. intros w. rewrite lookup_empty.
  destruct (CheckCsvDuplicates.duplicates (cycle_rows A B C) !! w) as [k|] eqn:E; [|done].
  apply duplicates_lookup in E as (_ & -> & Hk).
  pose proof (cycle_rows_of w HAB HBC HCA). lia.
Qed.

Lemma cycle_all_wallets : A ≠ "" → B ≠ "" → C ≠ "" →
  FindMissingSponsors.all_wallets (cycle_rows A B C)
  = {[ Str.lower A; Str.lower B; Str.lower C ]}.
Proof.
  intros. apply set_eq. intros x. rewrite elem_of_all_wallets.
  unfold cycle_rows. split.
  - intros (row & Hin & _ & <-).
    repeat apply elem_of_cons in Hin as [->|Hin];
      [rewrite cell_urow_user by done; set_solver..|by apply elem_of_nil in Hin].
  - rewrite !elem_of_union, !elem_of_singleton. intros [[->| ->]| ->].
    + exists (urow A B). rewrite cell_urow_user by done. set_solver.
    + exists (urow B C). rewrite cell_urow_user by done. set_solver.
    + exists (urow C A). rewrite cell_urow_user by done. set_solver.
Qed.

Lemma cycle_missing : A ≠ "" → B ≠ "" → C ≠ "" →
  CheckCsvDuplicates.missing (cycle_rows A B C) = [] ∧
  FindMissingSponsors.missing_sponsors (cycle_rows A B C) = [].
Proof.
  intros HAne HBne HCne.
  assert (∀ w, w ∈ [A; B; C] → w ∈ CheckCsvDuplicates.wallet_set (cycle_rows A B C))
    as Hws.
  { intros w Hw. apply elem_of_wallet_set. unfold cycle_rows.
    repeat apply elem_of_cons in Hw as [->|Hw]; [..|by apply elem_of_nil in Hw].
    - split; [done|]. exists (urow A B). rewrite cell_urow_user by done. set_solver.
    - split; [done|]. exists (urow B C). rewrite cell_urow_user by done. set_solver.
    - split; [done|]. exists (urow C A). rewrite cell_urow_user by done. set_solver. }
  split.
  - rewrite missing_filter.
    set (ws := CheckCsvDuplicates.wallet_set (cycle_rows A B C)) in *.
    unfold cycle_rows. rewrite !enumerate_cons.
    rewrite !filter_cons_False; [done|..];
      intros (_ & _ & Hn); cbn [snd] in Hn;
      rewrite cell_urow_referrer in Hn by done; apply Hn, Hws; set_solver.
  - rewrite missing_sponsors_rows, cycle_all_wallets by done.
    unfold cycle_rows. rewrite !enumerate_cons.
    rewrite !filter_cons_False; [done|..];
      intros [[_ Hn] _]; cbn [snd member_of FindMissingSponsors.referrer] in Hn;
      rewrite cell_urow_referrer in Hn by done; apply Hn; set_solver.
Qed.

End cycle.

Section cycle_resolve.
Context (member_refs : gmap string string) (user_addresses : gset string).

Lemma loop_body_seen (seen : gset string) (ref : string) :
  ref ∈ seen →
  loop_body member_refs user_addresses seen ref = Return FALLBACK_ROOT.
Proof. intros. unfold loop_body. by repeat case_decide. Qed.

(** On a three-cycle none of whose members is in the cohort the walk ends at
    the loop guard, if not before, and the fallback root is returned. *)
Lemma resolve_referrer_cycle (A B C : string) :
  member_refs !! A = Some B →
  member_refs !! B = Some C →
  member_refs !! C = Some A →
  A ∉ user_addresses → B ∉ user_addresses → C ∉ user_addresses →
  resolve_referrer A member_refs user_addresses = Some FALLBACK_ROOT.
Proof.
  intros HA HB HC HAn HBn HCn.
  destruct (resolve_referrer_total member_refs user_addresses A 0) as [r Hr].
  rewrite Nat.add_0_r in Hr. unfold resolve_referrer. rewrite Hr. f_equal.
  unfold resolve_referrer_fuel in Hr. rewrite HA in Hr.
  change (default "" (Some B)) with B in Hr.
  eapply (while_true_agree _ _ _ 4); [exact Hr|].
  rewrite while_true_S.
  destruct (loop_body_not_qualifying member_refs _ ∅ B HBn)
    as [->|(next & Hnext & ->)]; [done|].
  assert (next = C) as -> by congruence. clear Hnext.
  rewrite while_true_S.
  destruct (loop_body_not_qualifying member_refs _ ({[B]} ∪ ∅) C HCn)
    as [->|(next & Hnext & ->)]; [done|].
  assert (next = A) as -> by congruence. clear Hnext.
  rewrite while_true_S.
  destruct (loop_body_not_qualifying member_refs _ ({[C]} ∪ ({[B]} ∪ ∅)) A HAn)
    as [->|(next & Hnext & ->)]; [done|].
  assert (next = B) as -> by congruence. clear Hnext.
  rewrite while_true_S, loop_body_seen; [done|set_solver].
Qed.

End cycle_resolve.

(** C7, as the code has it: the audit scripts look for duplicates and for
    missing sponsors only.  On the rows of a cycle A -> B -> C -> A (three
    distinct, non-empty, trimmed names) they report nothing, so no cycle
    finding either; the cycle shows in resolution alone, where
    [resolve_referrer] stops at its loop guard and returns the fallback
    root when no member of the cycle is in the cohort. *)
Theorem cycle_not_reported (A B C : string) :
  Str.strip A = A → Str.strip B = B → Str.strip C = C →
  A ≠ "" → B ≠ "" → C ≠ "" →
  A ≠ B → B ≠ C → C ≠ A →
  CheckCsvDuplicates.duplicates_report (cycle_rows A B C) = Some [] ∧
  CheckCsvDuplicates.missing (cycle_rows A B C) = [] ∧
  FindMissingSponsors.missing_sponsors (cycle_rows A B C) = [] ∧
  (∀ (member_refs : gmap string string) (user_addresses : gset string),
     member_refs !! A = Some B →
     member_refs !! B = Some C →
     member_refs !! C = Some A →
     A ∉ user_addresses → B ∉ user_addresses → C ∉ user_addresses →
     resolve_referrer A member_refs user_addresses = Some FALLBACK_ROOT).
Proof.
  intros. split; [by apply cycle_duplicates|].
  split; [by apply cycle_missing|]. split; [by apply cycle_missing|].
  intros. by apply resolve_referrer_cycle with B C.
Qed.

Lemma cycle_not_reported_witness :
  CheckCsvDuplicates.duplicates_report (cycle_rows "0xA" "0xB" "0xC") = Some [] ∧
  CheckCsvDuplicates.missing (cycle_rows "0xA" "0xB" "0xC") = [] ∧
  FindMissingSponsors.missing_sponsors (cycle_rows "0xA" "0xB" "0xC") = [] ∧
  resolve_referrer "0xA" cycle_map_ex {[ "0xD" ]} = Some FALLBACK_ROOT.
Proof.
  destruct (cycle_not_reported "0xA" "0xB" "0xC")
    as (Hdup & Hmissing & Hsponsors & Hresolve);
    [reflexivity | reflexivity | reflexivity
    | discriminate | discriminate | discriminate
    | discriminate | discriminate | discriminate |].
  split; [exact Hdup|]. split; [exact Hmissing|]. split; [exact Hsponsors|].
  apply Hresolve; [reflexivity | reflexivity | reflexivity | ..];
    apply (proj1 (bool_decide_eq_false _)); vm_compute; reflexivity.
Defined.

(** C7 as stated fails: on the rows of the cycle A -> B -> C -> A neither
    script reports anything; there is no cycle finding at all. *)
Lemma cycle_no_finding :
  CheckCsvDuplicates.duplicates_report [urow "A" "B"; urow "B" "C"; urow "C" "A"]
  = Some [] ∧
  CheckCsvDuplicates.missing [urow "A" "B"; urow "B" "C"; urow "C" "A"] = [] ∧
  FindMissingSponsors.missing_sponsors
    [urow "A" "B"; urow "B" "C"; urow "C" "A"] = [].
Proof. repeat split; vm_compute; reflexivity. Qed.

(** * The scenario of the membership export

    Members A (no referrer), B -> A, C -> B, D -> C and E -> Z with Z
    unknown; the cohort is {C}. *)

Example scenario_resolve_D :
  resolve_referrer "D" (load_member_referrers scenario) {[ "C" ]} = Some "C".
Proof. vm_compute. reflexivity. Qed.

Example scenario_resolve_E :
  resolve_referrer "E" (load_member_referrers scenario) {[ "C" ]}
  = Some FALLBACK_ROOT.
Proof. vm_compute. reflexivity. Qed.

Example scenario_missing :
  CheckCsvDuplicates.missing
    [urow "A" ""; urow "B" "A"; urow "C" "B"; urow "D" "C"; urow "E" "Z"]
  = [ {| CheckCsvDuplicates.row := 6; CheckCsvDuplicates.user := "E";
         CheckCsvDuplicates.referrer := "Z" |} ].
Proof. vm_compute. reflexivity. Qed.

(** * More on chain resolution *)

Section resolve_more.
Context (member_refs : gmap string string) (user_addresses : gset string).

Lemma resolve_referrer_by_fuel (user_wallet : string) (fuel : nat)
    (r : string) :
  resolve_referrer_fuel fuel user_wallet member_refs user_addresses = Some r →
  resolve_referrer user_wallet member_refs user_addresses = Some r.
Proof.
  intros Hrun.
  destruct (resolve_referrer_total member_refs user_addresses user_wallet 0)
    as [r' Hr'].
  rewrite Nat.add_0_r in Hr'. unfold resolve_referrer. rewrite Hr'. f_equal.
  unfold resolve_referrer_fuel in *. by eapply while_true_agree.
Qed.

(** A result outside the fallback is the referrer the loop stands at; from
    a stored referrer on, every later one is stored as well. *)
Lemma while_true_stored (fuel : nat) (seen : gset string) (ref r : string) :
  ref = "" ∨ (∃ k, member_refs !! k = Some ref) →
  while_true fuel member_refs user_addresses seen ref = Some r →
  r = FALLBACK_ROOT ∨
  (r ∈ user_addresses ∧ r ≠ "" ∧ ∃ k, member_refs !! k = Some r).
Proof.
  revert seen ref. induction fuel as [|fuel IH]; intros seen ref Href; [done|].
  rewrite while_true_S.
  destruct (loop_body member_refs user_addresses seen ref)
    as [r0|seen' ref'] eqn:E.
  - intros [= ->].
    apply loop_body_Return in E as [Hne [->|(-> & Hq & _)]]; [by left|].
    right. destruct Href as [->|Href]; done.
  - apply loop_body_Continue in E as (_ & _ & _ & _ & _ & Hnext & _).
    apply IH. right. eauto.
Qed.

(** Cohort members that no row names as referrer play no part. *)
Lemma while_true_cohort_stored (fuel : nat) (seen : gset string)
    (ref : string) :
  ref = "" ∨ ref ∈ (map_img member_refs : gset string) →
  while_true fuel member_refs (user_addresses ∩ map_img member_refs) seen ref
  = while_true fuel member_refs user_addresses seen ref.
Proof.
  revert seen ref. induction fuel as [|fuel IH]; intros seen ref Href; [done|].
  rewrite !while_true_S.
  assert (loop_body member_refs (user_addresses ∩ map_img member_refs) seen ref
          = loop_body member_refs user_addresses seen ref) as ->.
  { unfold loop_body. destruct Href as [->|Href]; [done|].
    repeat case_decide; try done; set_solver. }
  destruct (loop_body member_refs user_addresses seen ref)
    as [r0|seen' ref'] eqn:E; [done|].
  apply loop_body_Continue in E as (_ & _ & _ & _ & _ & Hnext & _).
  apply IH. right. by eapply elem_of_map_img_2.
Qed.

End resolve_more.

(** X1: a wallet that is not a key of the referral map, or whose stored
    referrer is empty, resolves to the fallback root. *)
Theorem resolve_referrer_no_referrer (member_refs : gmap string string)
    (user_addresses : gset string) (user_wallet : string) :
  default "" (member_refs !! user_wallet) = "" →
  resolve_referrer user_wallet member_refs user_addresses = Some FALLBACK_ROOT.
Proof.
  intros Hnone. apply (resolve_referrer_by_fuel _ _ _ 1).
  unfold resolve_referrer_fuel. by rewrite Hnone.
Qed.

Lemma resolve_referrer_no_referrer_witness :
  resolve_referrer "0xE" {[ "0xA" := "0xB"; "0xC" := "" ]} {[ "0xB" ]}
  = Some FALLBACK_ROOT ∧
  resolve_referrer "0xC" {[ "0xA" := "0xB"; "0xC" := "" ]} {[ "0xB" ]}
  = Some FALLBACK_ROOT.
Proof.
  split; apply resolve_referrer_no_referrer; reflexivity.
Defined.

(** X2: the result of [resolve_referrer] is the fallback root or a non-empty
    string that is both in the cohort and stored as some wallet's referrer
    in the map: no other address is ever returned. *)
Theorem resolve_referrer_result_stored (member_refs : gmap string string)
    (user_addresses : gset string) (user_wallet : string) :
  ∃ r, resolve_referrer user_wallet member_refs user_addresses = Some r ∧
       (r = FALLBACK_ROOT ∨
        (r ∈ user_addresses ∧ r ≠ "" ∧ ∃ k, member_refs !! k = Some r)).
Proof.
  destruct (resolve_referrer_total member_refs user_addresses user_wallet 0)
    as [r Hr].
  rewrite Nat.add_0_r in Hr. exists r. split; [done|].
  eapply while_true_stored; [|exact Hr].
  destruct (member_refs !! user_wallet) as [v|] eqn:E; [right; eauto|by left].
Qed.

(** X3: when the chain reaches a referrer outside the cohort that is not a
    key of the map, or whose own referrer is empty, the result is the
    fallback root. *)
Theorem resolve_referrer_broken_chain (member_refs : gmap string string)
    (user_addresses : gset string) (user_wallet ref : string) :
  member_refs !! user_wallet = Some ref →
  ref ∉ user_addresses →
  default "" (member_refs !! ref) = "" →
  resolve_referrer user_wallet member_refs user_addresses = Some FALLBACK_ROOT.
Proof.
  intros Hw Hn Hbroken. apply (resolve_referrer_by_fuel _ _ _ 1).
  unfold resolve_referrer_fuel. rewrite Hw. simpl.
  unfold loop_body. rewrite Hbroken. by repeat case_decide.
Qed.

Lemma resolve_referrer_broken_chain_witness :
  resolve_referrer "0xE" {[ "0xE" := "0xZ"; "0xA" := "0xB" ]} {[ "0xB" ]}
  = Some FALLBACK_ROOT.
Proof.
  apply (resolve_referrer_broken_chain _ _ "0xE" "0xZ").
  - reflexivity.
  - apply (proj1 (bool_decide_eq_false _)). vm_compute. reflexivity.
  - reflexivity.
Defined.

(** X4: only the cohort members that some row names as referrer matter:
    resolving against the cohort and against its part stored in the map
    gives the same result. *)
Theorem resolve_referrer_cohort_stored (member_refs : gmap string string)
    (user_addresses : gset string) (user_wallet : string) :
  resolve_referrer user_wallet member_refs
    (user_addresses ∩ map_img member_refs)
  = resolve_referrer user_wallet member_refs user_addresses.
Proof.
  unfold resolve_referrer, resolve_referrer_fuel.
  apply while_true_cohort_stored.
  destruct (member_refs !! user_wallet) as [v|] eqn:E; [|by left].
  right. by eapply elem_of_map_img_2.
Qed.

(** X5: a member stored as its own referrer (the self-referring root of the
    membership export) resolves to itself when it is in the cohort and to
    the fallback root when it is not. *)
Theorem resolve_referrer_self (member_refs : gmap string string)
    (user_addresses : gset string) (w : string) :
  member_refs !! w = Some w →
  w ≠ "" →
  (w ∈ user_addresses →
   resolve_referrer w member_refs user_addresses = Some w) ∧
  (w ∉ user_addresses →
   resolve_referrer w member_refs user_addresses = Some FALLBACK_ROOT).
Proof.
  intros Hw Hne. split; intros Hq.
  - apply (resolve_referrer_by_fuel _ _ _ 1).
    unfold resolve_referrer_fuel. rewrite Hw. simpl.
    unfold loop_body. repeat case_decide; try done; congruence.
  - apply (resolve_referrer_by_fuel _ _ _ 2).
    unfold resolve_referrer_fuel. rewrite Hw.
    change (default "" (Some w)) with w. rewrite while_true_S.
    destruct (loop_body_not_qualifying member_refs _ ∅ w Hq)
      as [->|(next & Hnext & ->)]; [done|].
    assert (next = w) as -> by congruence.
    rewrite while_true_S, loop_body_seen; [done|set_solver].
Qed.

Lemma resolve_referrer_self_witness :
  resolve_referrer "0xA" {[ "0xA" := "0xA" ]} {[ "0xA" ]} = Some "0xA" ∧
  resolve_referrer "0xA" {[ "0xA" := "0xA" ]} ∅ = Some FALLBACK_ROOT.
Proof.
  destruct (resolve_referrer_self {[ "0xA" := "0xA" ]} {[ "0xA" ]} "0xA")
    as [Hin _]; [reflexivity | discriminate |].
  destruct (resolve_referrer_self {[ "0xA" := "0xA" ]} ∅ "0xA")
    as [_ Hout]; [reflexivity | discriminate |].
  split; [apply Hin | apply Hout].
  - apply elem_of_singleton_2. reflexivity.
  - apply not_elem_of_empty.
Defined.

(** * The loaders and [main] of build_resolved_referrals.py *)

Section loaders.

Lemma load_user_addresses_foldl (rows : list csv_row) (addresses : gset string)
    (x : string) :
  x ∈ foldl load_user_row addresses rows ↔
  x ∈ addresses ∨
  (x ≠ "" ∧ ∃ row, row ∈ rows ∧ cell row "USER BEP20 ADDRESS" = x).
Proof.
  revert addresses. induction rows as [|row rows IH]; intros addresses; simpl.
  - split; [by left|]. intros [?|(_ & row & ?%elem_of_nil & _)]; done.
  - rewrite IH. unfold load_user_row. split.
    + intros [Hin|(Hne & row' & Hin & Hrow')].
      * case_decide as Hd; [by left|].
        apply elem_of_union in Hin as [->%elem_of_singleton|Hin]; [|by left].
        right. split; [done|]. exists row. split; [left|done].
      * right. split; [done|]. exists row'. split; [by right|done].
    + intros [Hin|(Hne & row' & [->|Hin]%elem_of_cons & Hrow')].
      * left. case_decide; set_solver.
      * left. rewrite decide_False by congruence. set_solver.
      * right. eauto.
Qed.

Lemma load_entries (rows : list csv_row) (mapping : gmap string string)
    (w r : string) :
  foldl load_member_row mapping rows !! w = Some r →
  mapping !! w = Some r ∨
  (w ≠ "" ∧ ∃ row, row ∈ rows ∧ cell row "wallet_address" = w ∧
                   cell row "referrer_wallet" = r).
Proof.
  revert mapping. induction rows as [|row rows IH]; intros mapping; simpl.
  - by left.
  - intros [Hm|(Hne & row' & Hin & Hrow')]%IH.
    + rewrite load_member_row_lookup in Hm. case_decide as Hd; [|by left].
      destruct Hd as [Hw Hne]. injection Hm as <-. right. split; [done|].
      exists row. split; [left|done].
    + right. split; [done|]. exists row'. split; [by right|done].
Qed.

Lemma load_size (rows : list csv_row) (mapping : gmap string string) :
  size (foldl load_member_row mapping rows) ≤ size mapping + length rows.
Proof.
  revert mapping. induction rows as [|row rows IH]; intros mapping; simpl.
  - lia.
  - etrans; [apply IH|]. unfold load_member_row. case_decide; [lia|].
    destruct (mapping !! cell row "wallet_address") eqn:E.
    + rewrite map_size_insert_Some by done. lia.
    + rewrite map_size_insert_None by done. lia.
Qed.

End loaders.

(** X6: [load_user_addresses] collects exactly the non-empty trimmed cells of
    the address column: the empty string is never in the cohort, and a row
    without an address adds nothing. *)
Theorem load_user_addresses_spec (rows : list csv_row) (x : string) :
  x ∈ load_user_addresses rows ↔
  x ≠ "" ∧ ∃ row, row ∈ rows ∧ cell row "USER BEP20 ADDRESS" = x.
Proof.
  unfold load_user_addresses. rewrite load_user_addresses_foldl.
  split; [|by right]. intros [?%not_elem_of_empty|?]; done.
Qed.

(** X7: every entry of the map built by [load_member_referrers] comes from a
    row: its key is that row's non-empty trimmed wallet cell and its value
    that row's trimmed referrer cell; and the map has at most as many
    entries as there are rows. *)
Theorem load_member_referrers_entries (rows : list csv_row) :
  (∀ w r, load_member_referrers rows !! w = Some r →
          w ≠ "" ∧ ∃ row, row ∈ rows ∧ cell row "wallet_address" = w ∧
                          cell row "referrer_wallet" = r) ∧
  size (load_member_referrers rows) ≤ length rows.
Proof.
  split.
  - intros w r [Hm|?]%load_entries; [|done]. by rewrite lookup_empty in Hm.
  - unfold load_member_referrers.
    etrans; [apply load_size|]. by rewrite map_size_empty.
Qed.

Lemma load_member_referrers_entries_witness :
  "0xA" ≠ "" ∧
  ∃ row, row ∈ [mrow "0xA" "0xR1"; mrow " 0xA " "0xR2"] ∧
         cell row "wallet_address" = "0xA" ∧
         cell row "referrer_wallet" = "0xR2".
Proof.
  apply (proj1 (load_member_referrers_entries
                  [mrow "0xA" "0xR1"; mrow " 0xA " "0xR2"])).
  reflexivity.
Defined.

Section main.
Import Main.

Lemma main_row_no_user (member_refs : gmap string string)
    (user_addresses : gset string) (written : list output_row)
    (row : csv_row) :
  cell row "USER BEP20 ADDRESS" = "" →
  main_row member_refs user_addresses written row = Some written.
Proof. intros He. unfold main_row. by rewrite decide_True. Qed.

Lemma main_row_user (member_refs : gmap string string)
    (user_addresses : gset string) (written : list output_row)
    (row : csv_row) (r : string) :
  cell row "USER BEP20 ADDRESS" ≠ "" →
  resolve_referrer (cell row "USER BEP20 ADDRESS") member_refs user_addresses
  = Some r →
  main_row member_refs user_addresses written row
  = Some (written ++ [OutputRow (cell row "No")
                        (cell row "USER BEP20 ADDRESS") r]).
Proof. intros Hne Hr. unfold main_row. by rewrite decide_False, Hr. Qed.

Lemma main_foldl (member_refs : gmap string string)
    (user_addresses : gset string) (rows : list csv_row)
    (written : list output_row) :
  ∃ out,
    foldl (λ written row,
             written ≫= λ w, main_row member_refs user_addresses w row)
          (Some written) rows = Some (written ++ out) ∧
    Forall2 (answers member_refs user_addresses)
      (filter (λ row, cell row "USER BEP20 ADDRESS" ≠ "") rows) out.
Proof.
  revert written. induction rows as [|row rows IH]; intros written.
  - exists []. simpl. by rewrite app_nil_r.
  - cbn [foldl]. rewrite filter_cons.
    change (Some written ≫= _)
      with (main_row member_refs user_addresses written row).
    destruct (decide (cell row "USER BEP20 ADDRESS" = "")) as [He|Hne].
    + rewrite main_row_no_user by done.
      rewrite decide_False by (by intros ?). apply IH.
    + rewrite decide_True by done.
      destruct (resolve_referrer_total member_refs user_addresses
                  (cell row "USER BEP20 ADDRESS") 0) as [r Hr].
      rewrite Nat.add_0_r in Hr.
      rewrite (main_row_user _ _ _ _ r) by done.
      destruct (IH (written ++ [OutputRow (cell row "No")
                                  (cell row "USER BEP20 ADDRESS") r]))
        as (out & Hout & Hall).
      exists (OutputRow (cell row "No") (cell row "USER BEP20 ADDRESS") r :: out).
      split; [by rewrite Hout, <- app_assoc|].
      by constructor.
Qed.

Lemma main_answers (members_csv input_csv : list csv_row) :
  ∃ out,
    main members_csv input_csv = Some out ∧
    Forall2 (answers (load_member_referrers members_csv)
                     (load_user_addresses input_csv))
      (filter (λ row, cell row "USER BEP20 ADDRESS" ≠ "") input_csv) out.
Proof. apply (main_foldl _ _ input_csv []). Qed.

End main.

(** X8: [main] always completes, and writes one output row for each input
    row that has an address, in input order: the row's number and address
    as read, and the address [resolve_referrer] returns for it. *)
Theorem main_writes_row_per_user (members_csv input_csv : list csv_row) :
  ∃ out,
    Main.main members_csv input_csv = Some out ∧
    Forall2 (answers (load_member_referrers members_csv)
                     (load_user_addresses input_csv))
      (filter (λ row, cell row "USER BEP20 ADDRESS" ≠ "") input_csv) out.
Proof. apply main_answers. Qed.

(** X9: every referral address [main] writes is the fallback root or the
    address of some row of the same input file. *)
Theorem main_referral_closed (members_csv input_csv : list csv_row) :
  ∃ out,
    Main.main members_csv input_csv = Some out ∧
    Forall (λ o, Main.REFERAL_ADDRESS o = FALLBACK_ROOT ∨
                 ∃ row, row ∈ input_csv ∧
                        cell row "USER BEP20 ADDRESS" = Main.REFERAL_ADDRESS o)
           out.
Proof.
  destruct (main_answers members_csv input_csv) as (out & Hmain & Hall).
  exists out. split; [done|].
  apply Forall_forall. intros o Ho.
  apply list_elem_of_lookup in Ho as [i Ho].
  destruct (Forall2_lookup_r _ _ _ _ _ Hall Ho) as (row & _ & _ & _ & Hres).
  apply while_true_result in Hres as [_ [?|Hin]]; [by left|].
  right. apply load_user_addresses_foldl in Hin as [?%not_elem_of_empty|[_ ?]];
    done.
Qed.

(** X10: an input address that is no wallet of the members export (compared
    as written, after trimming) is written with the fallback root as its
    referral address. *)
Theorem main_unknown_user (members_csv input_csv : list csv_row) :
  ∃ out,
    Main.main members_csv input_csv = Some out ∧
    Forall (λ o, (∀ row, row ∈ members_csv →
                         cell row "wallet_address" ≠ Main.USER_BEP20_ADDRESS o) →
                 Main.REFERAL_ADDRESS o = FALLBACK_ROOT)
           out.
Proof.
  destruct (main_answers members_csv input_csv) as (out & Hmain & Hall).
  exists out. split; [done|].
  apply Forall_forall. intros o Ho Hunknown.
  apply list_elem_of_lookup in Ho as [i Ho].
  destruct (Forall2_lookup_r _ _ _ _ _ Hall Ho) as (row & _ & _ & _ & Hres).
  assert (load_member_referrers members_csv !! Main.USER_BEP20_ADDRESS o = None)
    as Hnone.
  { apply eq_None_not_Some. unfold load_member_referrers.
    rewrite load_keys, lookup_empty.
    intros [[? [=]]|(_ & row' & Hin & Hrow')]. by eapply Hunknown. }
  assert (resolve_referrer (Main.USER_BEP20_ADDRESS o)
            (load_member_referrers members_csv)
            (load_user_addresses input_csv) = Some FALLBACK_ROOT) as Hroot.
  { apply (resolve_referrer_by_fuel _ _ _ 1).
    unfold resolve_referrer_fuel. by rewrite Hnone. }
  congruence.
Qed.

Lemma main_unknown_user_witness :
  ∃ o, Main.main [mrow "0xA" "0xB"]
         [ {[ "No" := "1"; "USER BEP20 ADDRESS" := "0xC" ]} ] = Some [o] ∧
       Main.REFERAL_ADDRESS o = FALLBACK_ROOT.
Proof.
  destruct (main_unknown_user [mrow "0xA" "0xB"]
              [ {[ "No" := "1"; "USER BEP20 ADDRESS" := "0xC" ]} ])
    as (out & Hmain & Hall).
  assert (Main.main [mrow "0xA" "0xB"]
            [ {[ "No" := "1"; "USER BEP20 ADDRESS" := "0xC" ]} ]
          = Some [ Main.OutputRow "1" "0xC" FALLBACK_ROOT ]) as Hrun
    by (vm_compute; reflexivity).
  rewrite Hrun in Hmain. injection Hmain as <-.
  eexists. split; [exact Hrun|].
  apply Forall_cons in Hall as [Hroot _]. apply Hroot.
  intros row Hin. apply list_elem_of_singleton in Hin. subst row.
  vm_compute. discriminate.
Defined.

(** * Lower-casing *)

Section strings.

Lemma lower_empty (s : string) : Str.lower s = "" ↔ s = "".
Proof. destruct s; simpl; split; intros; done. Qed.

End strings.

(** * check_csv_duplicates.py: what the reports hold, and the summary *)

Section check_csv_more.
Import CheckCsvDuplicates.

Lemma elem_of_rows_of (w : string) (rows : list csv_row) (n : nat) :
  n ∈ rows_of w (enumerate 2 rows) ↔
  ∃ i row, n = 2 + i ∧ rows !! i = Some row ∧ cell row "User Name" = w.
Proof.
  unfold rows_of. rewrite list_elem_of_fmap. split.
  - intros ([n' row] & -> & [Hw Hin]%list_elem_of_filter).
    apply enumerate_elem_of in Hin as (i & ? & ?). simpl in *. eauto.
  - intros (i & row & -> & Hrow & Hw). exists (2 + i, row). split; [done|].
    apply list_elem_of_filter. split; [done|]. by apply enumerate_lookup.
Qed.

(** A list has no element twice exactly when no element is counted twice. *)
Lemma NoDup_count (l : list string) :
  NoDup l ↔ ∀ w, length (filter (λ x, x = w) l) ≤ 1.
Proof.
  induction l as [|x l IH].
  - split; [by intros; simpl; lia | constructor].
  - rewrite NoDup_cons, IH. split.
    + intros [Hx Hl] w. rewrite filter_cons. case_decide as Hw; [|apply Hl].
      subst w. simpl.
      destruct (filter (λ y, y = x) l) as [|y k] eqn:E; [simpl; lia|].
      assert (y ∈ y :: k) as Hy by left. rewrite <- E in Hy.
      by apply list_elem_of_filter in Hy as [-> ?].
    + intros Hall. split.
      * intros Hx. specialize (Hall x). rewrite filter_cons_True in Hall by done.
        simpl in Hall.
        assert (x ∈ filter (λ y, y = x) l) as Hin
          by (by apply list_elem_of_filter).
        destruct (filter (λ y, y = x) l); [by apply elem_of_nil in Hin|].
        simpl in Hall. lia.
      * intros w. specialize (Hall w). rewrite filter_cons in Hall.
        case_decide; simpl in Hall; lia.
Qed.

Lemma duplicates_empty_NoDup (rows : list csv_row) :
  duplicates rows = ∅ ↔ NoDup (wallets (scan_rows rows)).
Proof.
  unfold duplicates, wallet_counts. rewrite map_empty_filter, NoDup_count.
  unfold map_Forall. split.
  - intros Hall w. destruct (decide (w ∈ wallets (scan_rows rows))) as [Hin|Hnin].
    + specialize (Hall w (length (filter (λ x, x = w) (wallets (scan_rows rows))))).
      rewrite Counter_lookup, decide_True in Hall by done.
      specialize (Hall eq_refl). simpl in Hall. lia.
    + destruct (filter (λ x, x = w) _) as [|y k] eqn:E; [simpl; lia|].
      assert (y ∈ y :: k) as Hy by left. rewrite <- E in Hy.
      by apply list_elem_of_filter in Hy as [-> ?].
  - intros Hall w k. rewrite Counter_lookup. case_decide; [|done].
    intros [= <-]. simpl. specialize (Hall w). lia.
Qed.

Lemma size_list_to_set_NoDup (l : list string) :
  size (list_to_set l : gset string) ≤ length l ∧
  (size (list_to_set l : gset string) = length l ↔ NoDup l).
Proof.
  induction l as [|x l [IHle IHeq]].
  - rewrite list_to_set_nil, size_empty. split; [done|]. split; [constructor|done].
  - rewrite list_to_set_cons, NoDup_cons. simpl.
    destruct (decide (x ∈ l)) as [Hin|Hnin].
    + rewrite subseteq_union_1_L by set_solver.
      split; [lia|]. split; [lia|]. by intros [? _].
    + rewrite size_union, size_singleton by set_solver.
      split; [lia|]. rewrite <- IHeq. split; [intros; split; [done|lia]|].
      intros [_ ?]. lia.
Qed.

End check_csv_more.

(** X12: the duplicates report never fails, and every entry of it names a
    non-empty wallet, lists at least two rows, gives as count the number of
    rows listed, and lists only rows whose user name is that wallet. *)
Theorem duplicates_report_sound (rows : list csv_row) :
  ∃ report,
    CheckCsvDuplicates.duplicates_report rows = Some report ∧
    Forall (λ d,
      CheckCsvDuplicates.dup_wallet d ≠ "" ∧
      CheckCsvDuplicates.dup_count d
        = length (CheckCsvDuplicates.dup_rows d) ∧
      2 ≤ CheckCsvDuplicates.dup_count d ∧
      Forall (λ n, ∃ i row, n = 2 + i ∧ rows !! i = Some row ∧
                            cell row "User Name"
                            = CheckCsvDuplicates.dup_wallet d)
             (CheckCsvDuplicates.dup_rows d))
      report.
Proof.
  eexists. split; [apply duplicates_report_Some|].
  apply Forall_fmap, Forall_forall. intros [w k] Hwk. simpl.
  rewrite sorted_Permutation in Hwk.
  apply elem_of_map_to_list, duplicates_lookup in Hwk as (Hw & -> & Hk).
  repeat split; [done|lia|].
  apply Forall_forall. intros n Hn. by apply elem_of_rows_of.
Qed.

(** X13: the report is empty exactly when no user name occurs in two rows,
    and that is exactly when the summary's number of unique wallets equals
    its number of rows with a user name; the unique number is never the
    larger one. *)
Theorem no_duplicates_iff_unique (rows : list csv_row) :
  (CheckCsvDuplicates.duplicates_report rows = Some [] ↔
   NoDup (CheckCsvDuplicates.wallets (CheckCsvDuplicates.scan_rows rows))) ∧
  (size (CheckCsvDuplicates.wallet_set rows)
   = length (CheckCsvDuplicates.wallets (CheckCsvDuplicates.scan_rows rows)) ↔
   NoDup (CheckCsvDuplicates.wallets (CheckCsvDuplicates.scan_rows rows))) ∧
  size (CheckCsvDuplicates.wallet_set rows)
  ≤ length (CheckCsvDuplicates.wallets (CheckCsvDuplicates.scan_rows rows)).
Proof.
  split; [|split]; [|apply size_list_to_set_NoDup..].
  rewrite <- duplicates_empty_NoDup, duplicates_report_Some. split.
  - intros [= Hnil]. apply fmap_nil_inv in Hnil.
    apply map_to_list_empty_iff, Permutation_nil_r.
    by rewrite <- sorted_Permutation, Hnil.
  - intros ->. by rewrite map_to_list_empty.
Qed.

(** X14: the missing list holds exactly the entries of the rows whose
    referrer is not empty, differs from the row's own user name and is the
    user name of no row (compared as written); each carries the row's
    number, user name and referrer. *)
Theorem missing_spec (rows : list csv_row)
    (e : CheckCsvDuplicates.missing_entry) :
  e ∈ CheckCsvDuplicates.missing rows ↔
  ∃ i row,
    rows !! i = Some row ∧
    cell row "Referrer_User Name" ≠ "" ∧
    cell row "Referrer_User Name" ≠ cell row "User Name" ∧
    (∀ row', row' ∈ rows →
             cell row' "User Name" ≠ cell row "Referrer_User Name") ∧
    e = {| CheckCsvDuplicates.row := 2 + i;
           CheckCsvDuplicates.user := cell row "User Name";
           CheckCsvDuplicates.referrer := cell row "Referrer_User Name" |}.
Proof.
  rewrite missing_filter, list_elem_of_fmap. split.
  - intros ([n row] & -> & [(Hne & Hself & Hnin) Hin]%list_elem_of_filter).
    apply enumerate_elem_of in Hin as (i & Hn & Hrow). simpl in *. subst n.
    exists i, row. split; [done|]. split; [done|]. split; [done|].
    split; [|done].
    intros row' Hin' Heq. apply Hnin, elem_of_wallet_set. eauto.
  - intros (i & row & Hrow & Hne & Hself & Hnone & ->).
    exists (2 + i, row). split; [done|].
    apply list_elem_of_filter. split; [|by apply enumerate_lookup].
    split; [done|]. split; [done|].
    intros (_ & row' & Hin' & Heq)%elem_of_wallet_set. by eapply Hnone.
Qed.

(** * find_missing_sponsors.py against check_csv_duplicates.py, and its tally *)

Section missing_sponsors_more.

Lemma is_missing_sponsor_is_missing (rows : list csv_row) (i : nat)
    (row : csv_row) :
  rows !! i = Some row →
  cell row "User Name" ≠ "" →
  is_missing_sponsor (FindMissingSponsors.all_wallets rows)
    (member_of (2 + i, row)) →
  is_missing (CheckCsvDuplicates.wallet_set rows) (2 + i, row).
Proof.
  intros Hrow Huser [Hne Hkey]. unfold is_missing. simpl in *.
  split; [done|]. split.
  - intros Hself. apply Hkey, elem_of_all_wallets. exists row.
    rewrite Hself. split; [by eapply list_elem_of_lookup_2|done].
  - intros (_ & row' & Hin & Heq)%elem_of_wallet_set.
    apply Hkey, elem_of_all_wallets. exists row'. by rewrite Heq.
Qed.

End missing_sponsors_more.

(** X15: whatever the case-insensitive check of [find_missing_sponsors.py]
    reports, the case-sensitive check of [check_csv_duplicates.py] reports
    as well, for the same row, user and referrer. *)
Theorem missing_sponsors_also_missing (rows : list csv_row) :
  Forall (λ e, {| CheckCsvDuplicates.row := FindMissingSponsors.Row e;
                  CheckCsvDuplicates.user := FindMissingSponsors.Member_Wallet e;
                  CheckCsvDuplicates.referrer :=
                    FindMissingSponsors.Missing_Sponsor e |}
               ∈ CheckCsvDuplicates.missing rows)
         (FindMissingSponsors.missing_sponsors rows).
Proof.
  apply Forall_forall. intros e.
  rewrite missing_sponsors_rows, list_elem_of_fmap.
  intros ([n row] & -> & [[Hmiss Huser] Hin]%list_elem_of_filter).
  apply enumerate_elem_of in Hin as (i & Hn & Hrow). simpl in Hn, Hrow, Huser.
  subst n. rewrite missing_filter, list_elem_of_fmap.
  exists (2 + i, row). split; [done|].
  apply list_elem_of_filter. split; [|by apply enumerate_lookup].
  by apply is_missing_sponsor_is_missing.
Qed.

Section tally.
Import MissingSponsorCounts.

Lemma incr_to_map (c : list (string * nat)) (k : string) :
  (list_to_map (incr c k) : gmap string nat)
  = <[k := S (default 0 ((list_to_map c : gmap string nat) !! k))]>
      (list_to_map c).
Proof.
  induction c as [|[k' n] c IH]; [done|]. csimpl.
  destruct (decide (k' = k)) as [->|Hk].
  - csimpl. by rewrite lookup_insert_eq, insert_insert_eq.
  - csimpl. rewrite IH, lookup_insert_ne by done. by apply insert_insert_ne.
Qed.

Lemma incr_keys (c : list (string * nat)) (k : string) :
  (incr c k).*1 = if decide (k ∈ c.*1) then c.*1 else c.*1 ++ [k].
Proof.
  induction c as [|[k' n] c IH]; [done|]. csimpl.
  destruct (decide (k' = k)) as [->|Hk]; csimpl.
  - by rewrite decide_True by left.
  - rewrite IH. destruct (decide (k ∈ c.*1)).
    + by rewrite decide_True by (by right).
    + rewrite decide_False; [done|]. by intros [?|?]%elem_of_cons.
Qed.

Lemma incr_NoDup (c : list (string * nat)) (k : string) :
  NoDup c.*1 → NoDup (incr c k).*1.
Proof.
  intros Hnd. rewrite incr_keys. case_decide; [done|].
  apply NoDup_app. split; [done|]. split; [|apply NoDup_singleton].
  intros x Hx ->%list_elem_of_singleton. done.
Qed.

Lemma incr_sum (c : list (string * nat)) (k : string) :
  sum_list (incr c k).*2 = S (sum_list c.*2).
Proof.
  induction c as [|[k' n] c IH]; [done|]. csimpl.
  case_decide; csimpl; [done|]. rewrite IH. lia.
Qed.

Lemma incr_foldl (l : list string) (c : list (string * nat)) :
  NoDup c.*1 →
  NoDup (foldl incr c l).*1 ∧
  sum_list (foldl incr c l).*2 = sum_list c.*2 + length l ∧
  (list_to_map (foldl incr c l) : gmap string nat)
  = foldl (λ c w, <[w := S (default 0 (c !! w))]> c) (list_to_map c) l.
Proof.
  revert c. induction l as [|k l IH]; intros c Hnd; simpl.
  - split; [done|]. split; [lia|done].
  - destruct (IH (incr c k) (incr_NoDup c k Hnd)) as (? & -> & ->).
    split; [done|]. rewrite incr_sum, incr_to_map. split; [lia|done].
Qed.

(** The loop fills the list as the loop without the tally does, and tallies
    the sponsors of the entries in their order. *)
Lemma check_members_foldl (all_wallets : gset string)
    (l : list FindMissingSponsors.member)
    (ms : list FindMissingSponsors.missing_sponsor)
    (c : list (string * nat)) :
  foldl (check_member all_wallets) (ms, c) l
  = ( foldl (FindMissingSponsors.check_member all_wallets) ms l,
      foldl incr c
        (FindMissingSponsors.referrer
           <$> filter (is_missing_sponsor all_wallets) l) ).
Proof.
  revert ms c. induction l as [|m l IH]; intros ms c; [done|].
  cbn [foldl]. rewrite filter_cons.
  unfold check_member at 2, FindMissingSponsors.check_member at 2.
  unfold is_missing_sponsor at 2.
  destruct (decide (FindMissingSponsors.referrer m ≠ "")) as [Hne|He].
  - destruct (decide (Str.lower (FindMissingSponsors.referrer m) ∉ all_wallets)).
    + rewrite decide_True by done. by rewrite IH.
    + rewrite decide_False by (by intros [_ ?]). by rewrite IH.
  - rewrite decide_False by (by intros [? _]). by rewrite IH.
Qed.

Lemma missing_sponsor_counts_foldl (rows : list csv_row) :
  missing_sponsor_counts rows
  = foldl incr []
      (FindMissingSponsors.Missing_Sponsor
         <$> FindMissingSponsors.missing_sponsors rows).
Proof.
  unfold missing_sponsor_counts, check_members.
  rewrite check_members_foldl. simpl.
  by rewrite missing_sponsors_filter, <- list_fmap_compose.
Qed.







End tally.

(** X16: the tally [missing_sponsor_counts] has each missing sponsor, as it
    is spelled, once; its count is the number of entries of the missing
    list that name it; and the counts add up to the length of the missing
    list.  The loop with the tally fills the same list as without. *)
Theorem missing_sponsor_counts_spec (rows : list csv_row) :
  (MissingSponsorCounts.check_members rows).1
  = FindMissingSponsors.missing_sponsors rows ∧
  NoDup (MissingSponsorCounts.missing_sponsor_counts rows).*1 ∧
  (∀ s n,
     (s, n) ∈ MissingSponsorCounts.missing_sponsor_counts rows ↔
     0 < n ∧
     n = length (filter (λ e, FindMissingSponsors.Missing_Sponsor e = s)
                   (FindMissingSponsors.missing_sponsors rows))) ∧
  sum_list (MissingSponsorCounts.missing_sponsor_counts rows).*2
  = length (FindMissingSponsors.missing_sponsors rows).
Proof.
  split.
  { unfold MissingSponsorCounts.check_members.
    by rewrite check_members_foldl. }
  rewrite missing_sponsor_counts_foldl.
  destruct (incr_foldl
              (FindMissingSponsors.Missing_Sponsor
                 <$> FindMissingSponsors.missing_sponsors rows) [])
    as (Hnd & Hsum & Hmap); [constructor|].
  split; [done|]. split; [|by rewrite Hsum, length_fmap].
  intros s n. rewrite (elem_of_list_to_map (M := gmap string)) by done.
  rewrite Hmap.
  change (foldl _ (list_to_map []) ?l) with (CheckCsvDuplicates.Counter l).
  rewrite Counter_lookup, filter_fmap, length_fmap. simpl.
  set (k := length (filter _ _)).
  assert (s ∈ FindMissingSponsors.Missing_Sponsor
              <$> FindMissingSponsors.missing_sponsors rows ↔ 0 < k) as Hin.
  { unfold k. rewrite list_elem_of_fmap. split.
    - intros (e & -> & He).
      assert (e ∈ filter (λ x, FindMissingSponsors.Missing_Sponsor x
                               = FindMissingSponsors.Missing_Sponsor e)
                    (FindMissingSponsors.missing_sponsors rows)) as Hf
        by (by apply list_elem_of_filter).
      destruct (filter _ _); [by apply elem_of_nil in Hf|simpl; lia].
    - destruct (filter _ _) as [|e q] eqn:E; [simpl; lia|]. intros _.
      assert (e ∈ e :: q) as He by left. rewrite <- E in He.
      apply list_elem_of_filter in He as [? ?]. eauto. }
  case_decide as Hd.
  - split; [intros [= <-]; split; [by apply Hin|done]|by intros [_ ->]].
  - split; [done|]. intros [Hpos ->]. by apply Hin in Hpos.
Qed.


(** * analyze_import_issue.py and analyze_member_274.py *)

Section analyze.
Import AnalyzeImportIssue.

Lemma analyze_members_foldl (l : list (nat * csv_row))
    (acc : list FindMissingSponsors.member) :
  foldl read_row acc l = acc ++ (member_of <$> l).
Proof.
  revert acc. induction l as [|[n row] l IH]; intros acc; simpl.
  - by rewrite app_nil_r.
  - rewrite IH. unfold read_row. by rewrite <- app_assoc.
Qed.

Lemma analyze_members (rows : list csv_row) :
  members rows = member_of <$> enumerate 2 rows.
Proof. unfold members. by rewrite analyze_members_foldl. Qed.

Lemma ref_found_true (ms : list FindMissingSponsors.member)
    (m : FindMissingSponsors.member) :
  ref_found ms m = true ↔
  ∃ x, x ∈ ms ∧ Str.lower (FindMissingSponsors.wallet x)
                = Str.lower (FindMissingSponsors.referrer m).
Proof.
  unfold ref_found. rewrite existsb_exists. split.
  - intros (x & Hin%list_elem_of_In & Hx%bool_decide_eq_true). eauto.
  - intros (x & Hin & Hx). exists x. split; [by apply list_elem_of_In|].
    by apply bool_decide_eq_true.
Qed.

(** With a referrer that is not empty, the scan over all members finds a
    match exactly when the lower-cased referrer is in [all_wallets]. *)
Lemma ref_found_all_wallets (rows : list csv_row)
    (m : FindMissingSponsors.member) :
  FindMissingSponsors.referrer m ≠ "" →
  ref_found (members rows) m = true ↔
  Str.lower (FindMissingSponsors.referrer m)
    ∈ FindMissingSponsors.all_wallets rows.
Proof.
  intros Hne. rewrite ref_found_true, elem_of_all_wallets, analyze_members.
  split.
  - intros (x & (p & -> & Hin)%list_elem_of_fmap & Hx).
    apply enumerate_elem_of in Hin as (i & _ & Hrow). simpl in Hx.
    exists p.2. split; [by eapply list_elem_of_lookup_2|]. split; [|done].
    intros He. rewrite He in Hx. simpl in Hx. symmetry in Hx.
    apply (proj1 (lower_empty _)) in Hx. done.
  - intros (row & Hin & _ & Hrow).
    apply list_elem_of_lookup in Hin as [i Hi].
    exists (member_of (2 + i, row)). split; [|done].
    apply list_elem_of_fmap. exists (2 + i, row). split; [done|].
    by apply enumerate_lookup.
Qed.

Lemma analyze_missing_filter (rows : list csv_row) :
  missing_sponsors rows
  = filter (λ m, FindMissingSponsors.referrer m ≠ "" ∧
                 ref_found (members rows) m = false) (members rows).
Proof.
  unfold missing_sponsors.
  rewrite (foldl_append
             (λ m, FindMissingSponsors.referrer m ≠ "" ∧
                   ref_found (members rows) m = false) id).
  - by rewrite list_fmap_id.
  - intros acc m. unfold count_member.
    destruct (ref_found (members rows) m);
      repeat case_decide; try done; exfalso; intuition congruence.
Qed.

Lemma find_referrer_Some (idx : nat) (ms : list FindMissingSponsors.member)
    (target : FindMissingSponsors.member) (id : nat)
    (m : FindMissingSponsors.member) :
  find_referrer idx ms target = Some (id, m) ↔
  ∃ i, id = idx + i + 1 ∧ ms !! i = Some m ∧
       Str.lower (FindMissingSponsors.wallet m)
       = Str.lower (FindMissingSponsors.referrer target) ∧
       ∀ j x, j < i → ms !! j = Some x →
              Str.lower (FindMissingSponsors.wallet x)
              ≠ Str.lower (FindMissingSponsors.referrer target).
Proof.
  revert idx. induction ms as [|m0 ms IH]; intros idx; simpl.
  - split; [done|]. by intros (i & _ & ? & _).
  - case_decide as Hm0.
    + split.
      * intros [= <- <-]. exists 0. split; [lia|]. split; [done|].
        split; [done|]. intros; lia.
      * intros (i & -> & Hi & Hm & Hfirst). destruct i as [|i].
        -- injection Hi as <-. do 2 f_equal. lia.
        -- exfalso. by apply (Hfirst 0 m0); [lia|..].
    + rewrite IH. split.
      * intros (i & -> & Hi & Hm & Hfirst). exists (S i).
        split; [lia|]. split; [done|]. split; [done|].
        intros [|j] x Hj Hx; [by injection Hx as <-|].
        apply (Hfirst j); [lia|done].
      * intros (i & -> & Hi & Hm & Hfirst). destruct i as [|i].
        -- injection Hi as <-. done.
        -- exists i. split; [lia|]. split; [done|]. split; [done|].
           intros j x Hj Hx. apply (Hfirst (S j)); [lia|done].
Qed.

Lemma find_referrer_None (idx : nat) (ms : list FindMissingSponsors.member)
    (target : FindMissingSponsors.member) :
  find_referrer idx ms target = None ↔
  ∀ x, x ∈ ms → Str.lower (FindMissingSponsors.wallet x)
                ≠ Str.lower (FindMissingSponsors.referrer target).
Proof.
  revert idx. induction ms as [|m0 ms IH]; intros idx; simpl.
  - split; [|done]. by intros _ x ?%elem_of_nil.
  - case_decide as Hm0.
    + split; [done|]. intros Hall. destruct (Hall m0); [left|done].
    + rewrite IH. split.
      * intros Hall x [->|Hin]%elem_of_cons; [done|by apply Hall].
      * intros Hall x Hin. apply Hall. by right.
Qed.

End analyze.

(** X18: the missing-sponsor count of [analyze_import_issue.py], which scans
    all members for every member, and that of [find_missing_sponsors.py],
    which looks the lower-cased referrer up in a set, agree on the rows
    that have a user name: these are the same members, in the same order.
    (Rows without a user name are checked by the former only.) *)
Theorem analyze_missing_agrees (rows : list csv_row) :
  missing_sponsor_of
    <$> filter (λ m, FindMissingSponsors.wallet m ≠ "")
          (AnalyzeImportIssue.missing_sponsors rows)
  = FindMissingSponsors.missing_sponsors rows.
Proof.
  rewrite analyze_missing_filter, list_filter_filter, analyze_members.
  rewrite filter_fmap, <- list_fmap_compose, missing_sponsors_rows.
  f_equal. apply list_filter_iff. intros [n row]. simpl.
  unfold is_missing_sponsor. simpl. split.
  - intros (Huser & Hne & Hfound). split; [|done]. split; [done|].
    intros Hin. apply (ref_found_all_wallets rows (member_of (n, row))) in Hin;
      [|done].
    rewrite analyze_members in Hin. simpl in Hin. congruence.
  - intros [[Hne Hkey] Huser]. split; [done|]. split; [done|].
    apply not_true_is_false. intros Hfound. apply Hkey.
    rewrite <- analyze_members in Hfound.
    by apply (ref_found_all_wallets rows (member_of (n, row))) in Hfound.
Qed.

(** X19: in the analysis scripts every row is a member: the member at list
    index [i] (member id [i + 1]) is the row at index [i], with CSV row
    number [i + 2], and there are as many members as rows. *)
Theorem analyze_members_numbering (rows : list csv_row) :
  length (AnalyzeImportIssue.members rows) = length rows ∧
  ∀ i, AnalyzeImportIssue.members rows !! i
       = (λ row, member_of (2 + i, row)) <$> rows !! i.
Proof.
  rewrite analyze_members. split.
  - rewrite length_fmap. unfold enumerate.
    rewrite length_zip_with, length_seq. lia.
  - intros i. rewrite list_lookup_fmap. unfold enumerate.
    rewrite lookup_zip_with. destruct (rows !! i) as [row|] eqn:Hrow.
    + apply lookup_lt_Some in Hrow. by rewrite lookup_seq_lt.
    + by destruct (seq 2 (length rows) !! i).
Qed.

(** X20: the referrer search of the analysis scripts returns the FIRST member
    whose lower-cased wallet equals the lower-cased referrer of the target,
    with its member id (index + 1); it ends without a match exactly when no
    member matches.  In particular a target without referrer is matched by
    the first member without user name, if there is one. *)
Theorem find_referrer_first (ms : list FindMissingSponsors.member)
    (target : FindMissingSponsors.member) :
  (∀ id m,
     AnalyzeImportIssue.find_referrer 0 ms target = Some (id, m) ↔
     ∃ i, id = i + 1 ∧ ms !! i = Some m ∧
          Str.lower (FindMissingSponsors.wallet m)
          = Str.lower (FindMissingSponsors.referrer target) ∧
          ∀ j x, j < i → ms !! j = Some x →
                 Str.lower (FindMissingSponsors.wallet x)
                 ≠ Str.lower (FindMissingSponsors.referrer target)) ∧
  (AnalyzeImportIssue.find_referrer 0 ms target = None ↔
   ∀ x, x ∈ ms → Str.lower (FindMissingSponsors.wallet x)
                 ≠ Str.lower (FindMissingSponsors.referrer target)).
Proof.
  split; [|apply find_referrer_None].
  intros id m. rewrite find_referrer_Some. done.
Qed.

(** * Which comparisons fold the case *)

Section case_folding.



End case_folding.



(** * combine_transactions.py: the amounts *)

Section amounts.
Import CombineTransactions.
Local Open Scope Z_scope.

Lemma LEVEL_FEES_get (level : Z) :
  default 0 (LEVEL_FEES !! level)
  = if decide (2 ≤ level ≤ 19) then 50 * level + 50
    else if decide (level = 1) then 130 else 0.
Proof.
  destruct (decide (1 ≤ level ≤ 19)) as [Hin|Hout].
  - assert (level = 1 ∨ level = 2 ∨ level = 3 ∨ level = 4 ∨ level = 5 ∨
            level = 6 ∨ level = 7 ∨ level = 8 ∨ level = 9 ∨ level = 10 ∨
            level = 11 ∨ level = 12 ∨ level = 13 ∨ level = 14 ∨ level = 15 ∨
            level = 16 ∨ level = 17 ∨ level = 18 ∨ level = 19) as Hcases by lia.
    repeat (destruct Hcases as [->|Hcases]; [vm_compute; reflexivity|]).
    subst level. vm_compute. reflexivity.
  - rewrite decide_False by lia. rewrite decide_False by lia.
    unfold LEVEL_FEES. simpl.
    rewrite !lookup_insert_ne by lia. by rewrite lookup_empty.
Qed.

Lemma upgrade_amounts_fees (n : nat) (start : Z) :
  2 ≤ start → start + Z.of_nat n ≤ 20 →
  filter (λ fee, 0 < fee)
    ((λ level, default 0 (LEVEL_FEES !! level)) <$> seqZ start (Z.of_nat n))
  = (λ level, 50 * level + 50) <$> seqZ start (Z.of_nat n).
Proof.
  revert start. induction n as [|n IH]; intros start Hlo Hhi; [done|].
  rewrite seqZ_cons by lia. rewrite !fmap_cons, filter_cons.
  rewrite LEVEL_FEES_get.
  rewrite (decide_True (P := 2 ≤ start ≤ 19)) by lia.
  rewrite decide_True by lia. f_equal.
  replace (Z.pred (Z.of_nat (S n))) with (Z.of_nat n) by lia. apply IH; lia.
Qed.

Lemma upgrade_amounts_none (n : nat) (start : Z) :
  20 ≤ start →
  filter (λ fee, 0 < fee)
    ((λ level, default 0 (LEVEL_FEES !! level)) <$> seqZ start (Z.of_nat n))
  = [].
Proof.
  revert start. induction n as [|n IH]; intros start Hlo; [done|].
  rewrite seqZ_cons by lia. rewrite fmap_cons, filter_cons.
  rewrite LEVEL_FEES_get.
  rewrite (decide_False (P := 2 ≤ start ≤ 19)) by lia.
  rewrite (decide_False (P := start = 1)) by lia.
  rewrite decide_False by lia.
  replace (Z.pred (Z.of_nat (S n))) with (Z.of_nat n) by lia. apply IH; lia.
Qed.

Lemma upgrade_amounts_closed (current_level : Z) :
  upgrade_amounts current_level
  = (λ level, 50 * level + 50) <$> seqZ 2 (current_level `min` 19 - 1).
Proof.
  unfold upgrade_amounts.
  destruct (decide (current_level ≤ 1)) as [Hle|Hgt].
  { by rewrite !seqZ_nil by lia. }
  destruct (decide (current_level ≤ 19)) as [Hle|Hbig].
  - rewrite Z.min_l by lia.
    replace (current_level - 1) with (Z.of_nat (Z.to_nat (current_level - 1)))
      by lia.
    apply upgrade_amounts_fees; lia.
  - rewrite Z.min_r by lia.
    replace (current_level - 1) with (18 + (current_level - 19)) by lia.
    rewrite seqZ_app by lia. rewrite fmap_app, filter_app.
    change 18 with (Z.of_nat 18) at 1 2.
    rewrite (upgrade_amounts_fees 18 2) by lia.
    replace (current_level - 19)
      with (Z.of_nat (Z.to_nat (current_level - 19))) by lia.
    rewrite upgrade_amounts_none by lia. by rewrite app_nil_r.
Qed.

Lemma upgrade_amounts_ge (current_level : Z) :
  Forall (λ fee, 150 ≤ fee ≤ 1000) (upgrade_amounts current_level).
Proof.
  rewrite upgrade_amounts_closed. apply Forall_fmap, Forall_forall.
  intros level Hin%elem_of_seqZ. simpl. lia.
Qed.

Lemma filter_registration (activation_sequence current_level amount : Z) :
  amount = 120 ∨ amount = 130 →
  filter (λ a, a = amount) (member_amounts activation_sequence current_level)
  = if decide (registration_amount activation_sequence = amount)
    then [amount] else [].
Proof.
  intros Hamount. unfold member_amounts. rewrite filter_cons.
  assert (filter (λ a, a = amount) (upgrade_amounts current_level) = [])
    as ->.
  { pose proof (upgrade_amounts_ge current_level) as Hge.
    destruct (filter _ _) as [|a l] eqn:E; [done|].
    assert (a ∈ a :: l) as Ha by left. rewrite <- E in Ha.
    apply list_elem_of_filter in Ha as [-> Ha].
    rewrite Forall_forall in Hge. apply Hge in Ha. lia. }
  case_decide as Hd; [by rewrite Hd|done].
Qed.

Lemma count_registrations (members : list (Z * Z)) (amount : Z) :
  amount = 120 ∨ amount = 130 →
  length (filter (λ a, a = amount) (output_amounts members))
  = length (filter (λ m, registration_amount m.1 = amount) members).
Proof.
  intros Hamount. unfold output_amounts.
  induction members as [|[s l] members IH]; [done|].
  rewrite bind_cons, filter_app, length_app, IH, filter_cons.
  rewrite filter_registration by done. simpl.
  by case_decide.
Qed.

End amounts.

(** X21: [LEVEL_FEES.get(level, 0)] is 130 for level 1, 50 * level + 50 for
    the levels 2 to 19, and 0 for every other level. *)
Theorem LEVEL_FEES_closed_form (level : Z) :
  default 0%Z (CombineTransactions.LEVEL_FEES !! level)
  = if decide (2 ≤ level ≤ 19)%Z then (50 * level + 50)%Z
    else if decide (level = 1%Z) then 130%Z else 0%Z.
Proof. apply LEVEL_FEES_get. Qed.

(** X22: when [main] reaches its output, the records of 150 or more are
    the upgrades: up to order, one for each member and each level from 2 to
    min(level, 19), with the fee 50 * level + 50; levels below 2 and above
    19 contribute none. *)
Theorem upgrade_records_when_written (members : list (Z * Z))
    (records : list Z) :
  records ≡ₚ CombineTransactions.output_amounts members →
  filter (λ a, (150 ≤ a)%Z) records
  ≡ₚ members ≫= (λ m, (λ level, 50 * level + 50)%Z
                         <$> seqZ 2 (m.2 `min` 19 - 1)).
Proof.
  intros ->. unfold CombineTransactions.output_amounts.
  induction members as [|[s l] members IH]; [done|].
  rewrite !bind_cons, filter_app, IH. apply Permutation_app; [|done].
  unfold CombineTransactions.member_amounts. rewrite filter_cons.
  rewrite decide_False
    by (unfold CombineTransactions.registration_amount; case_decide; lia).
  rewrite <- upgrade_amounts_closed. simpl.
  pose proof (upgrade_amounts_ge l) as Hge.
  induction Hge as [|a fees Ha _ IHfees]; [done|].
  rewrite filter_cons, decide_True by lia. by rewrite IHfees.
Qed.

Lemma upgrade_records_when_written_witness :
  filter (λ a, (150 ≤ a)%Z) [150; 130; 120; 200; 120]%Z
  ≡ₚ [(7, 1); (4, 3); (-3, 0)]%Z
       ≫= (λ m, (λ level, 50 * level + 50)%Z <$> seqZ 2 (m.2 `min` 19 - 1)).
Proof.
  apply (upgrade_records_when_written [(7, 1); (4, 3); (-3, 0)]%Z).
  vm_compute.
  apply perm_trans with [130; 150; 120; 200; 120]%Z; [apply perm_swap|].
  apply perm_trans with [130; 120; 150; 200; 120]%Z;
    [apply perm_skip, perm_swap|].
  apply perm_swap.
Defined.

(** X23: in the output, however it is ordered, the records of 120 are
    exactly the registrations of the members with an odd activation
    sequence and the records of 130 those of the members with an even one:
    no upgrade fee equals either amount, so the summary's two registration
    counts are exact. *)
Theorem registration_counts (members : list (Z * Z)) (records : list Z) :
  records ≡ₚ CombineTransactions.output_amounts members →
  length (filter (λ a, a = 120%Z) records)
  = length (filter (λ m, (m.1 `mod` 2)%Z ≠ 0%Z) members) ∧
  length (filter (λ a, a = 130%Z) records)
  = length (filter (λ m, (m.1 `mod` 2)%Z = 0%Z) members).
Proof.
  intros ->. rewrite !count_registrations by auto.
  split; f_equal; apply list_filter_iff; intros [s l]; simpl;
    unfold CombineTransactions.registration_amount; case_decide; split;
    intros; done.
Qed.

Lemma registration_counts_witness :
  length (filter (λ a, a = 120%Z) [150; 130; 120; 200; 120]%Z)
  = length (filter (λ m, (m.1 `mod` 2)%Z ≠ 0%Z) [(7, 1); (4, 3); (-3, 0)]%Z) ∧
  length (filter (λ a, a = 130%Z) [150; 130; 120; 200; 120]%Z)
  = length (filter (λ m, (m.1 `mod` 2)%Z = 0%Z) [(7, 1); (4, 3); (-3, 0)]%Z).
Proof.
  apply (registration_counts [(7, 1); (4, 3); (-3, 0)]%Z).
  vm_compute.
  apply perm_trans with [130; 150; 120; 200; 120]%Z; [apply perm_swap|].
  apply perm_trans with [130; 120; 150; 200; 120]%Z;
    [apply perm_skip, perm_swap|].
  apply perm_swap.
Defined.

(** X24: when [main] reaches its output, the number of records is, for
    each member, one registration plus one upgrade for each of the levels 2
    to min(level, 19); and every amount is positive. *)
Theorem records_count_when_written (members : list (Z * Z))
    (records : list Z) :
  records ≡ₚ CombineTransactions.output_amounts members →
  length records
  = sum_list ((λ m, S (Z.to_nat (m.2 `min` 19 - 1))) <$> members) ∧
  Forall (λ a, (0 < a)%Z) records.
Proof.
  intros ->. unfold CombineTransactions.output_amounts. split.
  - induction members as [|[s l] members IH]; [done|].
    rewrite bind_cons, length_app, IH, fmap_cons. simpl. f_equal.
    rewrite upgrade_amounts_closed. by rewrite length_fmap, length_seqZ.
  - apply Forall_forall. intros a ([s l] & Ha & _)%list_elem_of_bind.
    unfold CombineTransactions.member_amounts in Ha. simpl in Ha.
    apply elem_of_cons in Ha as [->|Ha].
    + unfold CombineTransactions.registration_amount. case_decide; lia.
    + pose proof (upgrade_amounts_ge l) as Hge.
      rewrite Forall_forall in Hge. apply Hge in Ha. lia.
Qed.

Lemma records_count_when_written_witness :
  length [150; 130; 120; 200; 120]%Z
  = sum_list ((λ m, S (Z.to_nat (m.2 `min` 19 - 1)))
                <$> [(7, 1); (4, 3); (-3, 0)]%Z) ∧
  Forall (λ a, (0 < a)%Z) [150; 130; 120; 200; 120]%Z.
Proof.
  apply (records_count_when_written [(7, 1); (4, 3); (-3, 0)]%Z).
  vm_compute.
  apply perm_trans with [130; 150; 120; 200; 120]%Z; [apply perm_swap|].
  apply perm_trans with [130; 120; 150; 200; 120]%Z;
    [apply perm_skip, perm_swap|].
  apply perm_swap.
Defined.
